(** * jujuchat tokenizer: conversation rendering

    A shallow embedding of [jujuchat/tokenizer.py] (class
    [RustBPETokenizer]) and the properties of its conversation renderer,
    completion renderer and [encode] facade.

    The tiktoken encoding object [self.enc] is an external collaborator:
    it is a record of the three entry points the wrapper calls.  Python
    exceptions are values of [exn]; a call that raises returns [inl e] and
    nothing else.  [assert] statements are executed (no [-O]). *)

From stdpp Require Import base list strings gmap.
From Stdlib Require Import ZArith Lia.

Local Open Scope string_scope.
Local Open Scope Z_scope.
Local Open Scope list_scope.

(** ** Exceptions and results *)

Inductive exn : Set :=
| AssertionError
| ValueError
| IndexError
| TypeError
| KeyError.

Definition result (A : Type) : Type := exn + A.

Definition raise {A} (e : exn) : result A := inl e.

Definition rbind {A B} (c : result A) (k : A -> result B) : result B :=
  match c with
  | inl e => inl e
  | inr a => k a
  end.

Notation "'let*' x ':=' c 'in' k" := (rbind c (fun x => k))
  (at level 10, x name, c at level 100, k at level 200).
Notation "'let*' ' pat ':=' c 'in' k" := (rbind c (fun x => match x with pat => k end))
  (at level 10, pat pattern, c at level 100, k at level 200).

(** [assert cond, msg] *)
Definition py_assert (cond : bool) : result unit :=
  if cond then inr tt else raise AssertionError.

(** The call raised. *)
Definition raised {A} (r : result A) : Prop := exists e, r = inl e.

(** ** The special tokens *)

Definition SPECIAL_TOKENS : list string :=
  [ "<|bos|>";
    "<|user_start|>";
    "<|user_end|>";
    "<|assistant_start|>";
    "<|assistant_end|>";
    "<|python_start|>";
    "<|python_end|>";
    "<|output_start|>";
    "<|output_end|>" ].

(** ** The encoding object and the wrapper *)

(** [tiktoken.Encoding], as far as the wrapper uses it:
    [enc.encode_ordinary(text)], [enc.encode_ordinary_batch(texts)] and
    [enc.encode_single_token(text)], which raises [KeyError] on a string
    that is not one token of the vocabulary ([None] here). *)
Record Encoding : Type := {
  encode_ordinary : string -> list Z;
  encode_ordinary_batch : list string -> list (list Z);
  encode_single_token : string -> option Z
}.

Record RustBPETokenizer : Type := {
  enc : Encoding;
  bos_token_id : Z
}.

(** [encode_special]: the [lru_cache] memoises a function of the name and
    does not change what is returned. *)
Definition encode_special (self : RustBPETokenizer) (text : string) : result Z :=
  match encode_single_token (enc self) text with
  | Some id => inr id
  | None => raise KeyError
  end.

(** [__init__(self, enc, bos_token)] *)
Definition init (e : Encoding) (bos_token : string) : result RustBPETokenizer :=
  match encode_single_token e bos_token with
  | Some id => inr {| enc := e; bos_token_id := id |}
  | None => raise KeyError
  end.

Definition get_bos_token_id (self : RustBPETokenizer) : Z := bos_token_id self.

(** The dictionary built in [train_from_iterator]:
    [{name: tokens_offset + i for i, name in enumerate(SPECIAL_TOKENS)}];
    a later entry of a comprehension overwrites an earlier one. *)
Fixpoint special_tokens_from (tokens_offset : Z) (i : Z) (names : list string)
    (d : gmap string Z) : gmap string Z :=
  match names with
  | [] => d
  | name :: names' =>
      special_tokens_from tokens_offset (i + 1) names' (<[name := tokens_offset + i]> d)
  end.

Definition special_tokens (tokens_offset : Z) : gmap string Z :=
  special_tokens_from tokens_offset 0 SPECIAL_TOKENS ∅.

(** ** [encode] *)

(** The [text] argument: a [str], a [list] of [str], or anything else. *)
Inductive text_arg : Type :=
| TStr (s : string)
| TList (l : list string)
| TOther.

(** [prepend] / [append]: a token id ([int]) or a special token ([str]). *)
Inductive token_arg : Type :=
| TokId (id : Z)
| TokName (name : string).

(** What [encode] returns: [list[int]] or [list[list[int]]]. *)
Inductive encoded : Type :=
| EIds (ids : list Z)
| ERows (rows : list (list Z)).

Definition resolve (self : RustBPETokenizer) (a : option token_arg) : result (option Z) :=
  match a with
  | None => inr None
  | Some (TokId id) => inr (Some id)
  | Some (TokName name) => let* id := encode_special self name in inr (Some id)
  end.

(** [ids.insert(0, prepend_id)] when [prepend is not None] *)
Definition insert_front (p : option Z) (ids : list Z) : list Z :=
  match p with
  | Some id => id :: ids
  | None => ids
  end.

(** [ids.append(append_id)] when [append is not None] *)
Definition append_back (a : option Z) (ids : list Z) : list Z :=
  match a with
  | Some id => ids ++ [id]
  | None => ids
  end.

Definition encode (self : RustBPETokenizer) (text : text_arg)
    (prepend append : option token_arg) : result encoded :=
  let* prepend_id := resolve self prepend in
  let* append_id := resolve self append in
  match text with
  | TStr s =>
      let ids := encode_ordinary (enc self) s in
      let ids := insert_front prepend_id ids in
      let ids := append_back append_id ids in
      inr (EIds ids)
  | TList l =>
      let ids := encode_ordinary_batch (enc self) l in
      let ids := map (insert_front prepend_id) ids in
      let ids := map (append_back append_id) ids in
      inr (ERows ids)
  | TOther => raise ValueError
  end.

(** [self.encode(s)] for a [str] [s], as the renderer calls it: no
    [prepend], no [append], and a [list[int]] comes back. *)
Definition encode_text (self : RustBPETokenizer) (s : string) : result (list Z) :=
  let* r := encode self (TStr s) None None in
  match r with
  | EIds ids => inr ids
  | ERows _ => raise TypeError
  end.

(** ** Conversations *)

(** A part of an assistant message: [{"type": ..., "text": ...}], its
    text a [str]. *)
Record part : Type := {
  part_type : string;
  part_text : string
}.

(** [message["content"]]: a [str], a [list] of parts, or a value of
    another type ([int], [None]). *)
Inductive content_val : Type :=
| CStr (s : string)
| CParts (ps : list part)
| CInt (z : Z)
| CNone.

Record message : Type := {
  role : string;
  content : content_val
}.

Record conversation : Type := {
  messages : list message
}.

(** Python's [+] on the values a content can hold. *)
Definition py_add (a b : content_val) : result content_val :=
  match a, b with
  | CStr x, CStr y => inr (CStr (x +:+ y))
  | CParts x, CParts y => inr (CParts (x ++ y))
  | CInt x, CInt y => inr (CInt (x + y))
  | _, _ => raise TypeError
  end.

(** [xs[:n]] for a Python [int] [n]: a negative [n] counts from the end. *)
Definition py_slice_to {A} (n : Z) (xs : list A) : list A :=
  if n <? 0 then take (Z.to_nat (Z.of_nat (length xs) + n)) xs
  else take (Z.to_nat n) xs.

(** ** The renderer's state: the two lists [ids] and [mask] *)

Definition render_state : Type := list Z * list Z.

Definition M (A : Type) : Type := render_state -> result (A * render_state).

Definition sret {A} (a : A) : M A := fun st => inr (a, st).

Definition sbind {A B} (c : M A) (k : A -> M B) : M B :=
  fun st =>
    match c st with
    | inl e => inl e
    | inr (a, st') => k a st'
    end.

Definition lift {A} (r : result A) : M A :=
  fun st =>
    match r with
    | inl e => inl e
    | inr a => inr (a, st)
    end.

Notation "'do*' x ':=' c 'in' k" := (sbind c (fun x => k))
  (at level 10, x name, c at level 100, k at level 200).
Notation "c1 ';>' c2" := (sbind c1 (fun _ => c2))
  (at level 100, c2 at level 200, right associativity).

(** What a piece of the renderer appends when [ids] and [mask] start
    empty, as they do at [ids, mask = [], []]. *)
Definition chunk (c : M unit) : result (list Z * list Z) :=
  let* r := c ([], []) in
  inr (snd r).

(** The first argument of [add_tokens]: one id or a list of ids. *)
Inductive tokens_arg : Type :=
| OneToken (id : Z)
| TokenList (ids : list Z).

Definition add_tokens (token_ids : tokens_arg) (mask_val : Z) : M unit :=
  fun '(ids, mask) =>
    let token_ids :=
      match token_ids with
      | OneToken id => [id]
      | TokenList l => l
      end in
    inr (tt, (ids ++ token_ids, mask ++ replicate (length token_ids) mask_val)).

(** The ids fetched once before the loop. *)
Record special_ids : Type := {
  user_start : Z;
  user_end : Z;
  assistant_start : Z;
  assistant_end : Z;
  python_start : Z;
  python_end : Z;
  output_start : Z;
  output_end : Z
}.

(** ** [render_conversation] *)

(** ["user" if i % 2 == 0 else "assistant"] *)
Definition must_be_from (i : nat) : string :=
  if (i mod 2 =? 0)%nat then "user" else "assistant".

Section render.
Variable self : RustBPETokenizer.
Variable sp : special_ids.

(** One iteration of [for part in content]. *)
Definition render_part (p : part) : M unit :=
  do* value_ids := lift (encode_text self (part_text p)) in
  if String.eqb (part_type p) "text" then
    add_tokens (TokenList value_ids) 1
  else if String.eqb (part_type p) "python" then
    add_tokens (OneToken (python_start sp)) 1 ;>
    add_tokens (TokenList value_ids) 1 ;>
    add_tokens (OneToken (python_end sp)) 1
  else if String.eqb (part_type p) "python_output" then
    add_tokens (OneToken (output_start sp)) 0 ;>
    add_tokens (TokenList value_ids) 0 ;>
    add_tokens (OneToken (output_end sp)) 0
  else
    lift (raise ValueError).

Fixpoint render_parts (ps : list part) : M unit :=
  match ps with
  | [] => sret tt
  | p :: ps' => render_part p ;> render_parts ps'
  end.

(** The assistant branch between its two markers: a [str], a [list]
    of parts, or [raise ValueError]. *)
Definition render_assistant_content (c : content_val) : M unit :=
  match c with
  | CStr s =>
      do* value_ids := lift (encode_text self s) in
      add_tokens (TokenList value_ids) 1
  | CParts ps => render_parts ps
  | _ => lift (raise ValueError)
  end.

(** One iteration of [for i, message in enumerate(messages)].  The
    [assert isinstance(content, str)] of the user branch is the match on
    [CStr]. *)
Definition render_message (i : nat) (m : message) : M unit :=
  let must_be_from := must_be_from i in
  lift (py_assert (String.eqb (role m) must_be_from)) ;>
  if String.eqb (role m) "user" then
    match content m with
    | CStr s =>
        do* value_ids := lift (encode_text self s) in
        add_tokens (OneToken (user_start sp)) 0 ;>
        add_tokens (TokenList value_ids) 0 ;>
        add_tokens (OneToken (user_end sp)) 0
    | _ => lift (raise AssertionError)
    end
  else if String.eqb (role m) "assistant" then
    add_tokens (OneToken (assistant_start sp)) 0 ;>
    render_assistant_content (content m) ;>
    add_tokens (OneToken (assistant_end sp)) 1
  else
    sret tt.

Fixpoint render_messages (i : nat) (msgs : list message) : M unit :=
  match msgs with
  | [] => sret tt
  | m :: msgs' => render_message i m ;> render_messages (S i) msgs'
  end.
End render.

(** The separator ["\n\n"]: two line feeds. *)
Definition newline2 : string :=
  String (Ascii.ascii_of_nat 10) (String (Ascii.ascii_of_nat 10) EmptyString).

(** The conversation surgery: the list the loop runs over. *)
Definition merge_system (conv : conversation) : result (list message) :=
  match messages conv with
  | [] => raise IndexError
  | m0 :: tl =>
      if String.eqb (role m0) "system" then
        match tl with
        | [] => raise IndexError
        | m1 :: rest =>
            let* _ := py_assert (String.eqb (role m1) "user") in
            let* c := py_add (content m0) (CStr newline2) in
            let* c := py_add c (content m1) in
            inr ({| role := role m1; content := c |} :: rest)
        end
      else inr (messages conv)
  end.

(** The eight [encode_special] calls before the loop, in source order. *)
Definition fetch_special_ids (self : RustBPETokenizer) : result special_ids :=
  let* user_start := encode_special self "<|user_start|>" in
  let* user_end := encode_special self "<|user_end|>" in
  let* assistant_start := encode_special self "<|assistant_start|>" in
  let* assistant_end := encode_special self "<|assistant_end|>" in
  let* python_start := encode_special self "<|python_start|>" in
  let* python_end := encode_special self "<|python_end|>" in
  let* output_start := encode_special self "<|output_start|>" in
  let* output_end := encode_special self "<|output_end|>" in
  inr {| user_start := user_start; user_end := user_end;
         assistant_start := assistant_start; assistant_end := assistant_end;
         python_start := python_start; python_end := python_end;
         output_start := output_start; output_end := output_end |}.

(** Everything before the truncation: the emitted [ids] and [mask]. *)
Definition emit (self : RustBPETokenizer) (conv : conversation)
    : result (list Z * list Z) :=
  let* msgs := merge_system conv in
  let* _ := py_assert (1 <=? length msgs)%nat in
  let bos := get_bos_token_id self in
  let* sp := fetch_special_ids self in
  chunk (add_tokens (OneToken bos) 0 ;> render_messages self sp 0 msgs).

Definition render_conversation (self : RustBPETokenizer) (conv : conversation)
    (max_tokens : Z) : result (list Z * list Z) :=
  let* '(ids, mask) := emit self conv in
  let ids := py_slice_to max_tokens ids in
  let mask := py_slice_to max_tokens mask in
  inr (ids, mask).

(** ** [render_for_completion] *)

Definition render_for_completion (self : RustBPETokenizer) (conv : conversation)
    : result (list Z) :=
  match last (messages conv) with
  | None => raise IndexError
  | Some m =>
      let* _ := py_assert (String.eqb (role m) "assistant") in
      let conv := {| messages := removelast (messages conv) |} in
      let* '(ids, mask) := render_conversation self conv 2048 in
      let* assistant_start := encode_special self "<|assistant_start|>" in
      inr (ids ++ [assistant_start])
  end.

(** ** [train_from_iterator] *)

(** The split pattern handed to the trainer. *)
Definition SPLIT_PATTERN : string :=
  "'(?i:[sdmt]|ll|ve|re)|[^\r\n\p{L}\p{N}]?+\p{L}+|\p{N}{1,2}| ?[^\s\p{L}\p{N}]++[\r\n]*|\s*[\r\n]|\s+(?!\S)|\s+".

(** A trained [rustbpe.Tokenizer], as far as the wrapper reads it:
    [get_pattern()] and [get_mergeable_ranks()], a list of pairs of token
    bytes and rank. *)
Record rustbpe_Tokenizer : Type := {
  get_pattern : string;
  get_mergeable_ranks : list (string * Z)
}.

(** [{bytes(k): v for k, v in mergeable_ranks_list}]: a later pair with
    the same bytes overwrites an earlier one. *)
Definition mergeable_ranks_dict (l : list (string * Z)) : gmap string Z :=
  fold_left (fun d kv => <[kv.1 := kv.2]> d) l ∅.

Section train.
(** [rustbpe]'s training on the given text iterator, and the constructor
    [tiktoken.Encoding(name, pat_str, mergeable_ranks, special_tokens)]:
    both are outside the repository. *)
Variable rustbpe_train : Z -> string -> rustbpe_Tokenizer.
Variable tiktoken_Encoding :
  string -> string -> gmap string Z -> gmap string Z -> Encoding.

Definition train_from_iterator (vocab_size : Z) : result RustBPETokenizer :=
  let vocab_size_no_special := vocab_size - Z.of_nat (length SPECIAL_TOKENS) in
  let* _ := py_assert (256 <=? vocab_size_no_special) in
  let tokenizer := rustbpe_train vocab_size_no_special SPLIT_PATTERN in
  let pattern := get_pattern tokenizer in
  let mergeable_ranks_list := get_mergeable_ranks tokenizer in
  let mergeable_ranks := mergeable_ranks_dict mergeable_ranks_list in
  let tokens_offset := Z.of_nat (size mergeable_ranks) in
  let special_tokens := special_tokens tokens_offset in
  let enc := tiktoken_Encoding "rustbpe" pattern mergeable_ranks special_tokens in
  init enc "<|bos|>".
End train.

(** [from_pretrained], once [tiktoken.get_encoding] has returned the
    encoding object. *)
Definition from_pretrained (e : Encoding) : result RustBPETokenizer :=
  init e "<|endoftext|>".

(** ** [visualize_tokenization] *)

(** The ANSI escape character, [\033]. *)
Definition ESC : string := String (Ascii.ascii_of_nat 27) EmptyString.

Definition RED : string := ESC +:+ "[91m".
Definition GREEN : string := ESC +:+ "[92m".
Definition RESET : string := ESC +:+ "[0m".

Section visualize.
(** [self.decode], that is [self.enc.decode]. *)
Variable decode : list Z -> string.

(** The list [tokens] built by the loop over [zip(ids, mask)]. *)
Definition visualize_tokens (ids mask : list Z) : list string :=
  map (fun p : Z * Z =>
         let token_str := decode [p.1] in
         let color := if p.2 =? 1 then GREEN else RED in
         color +:+ token_str +:+ RESET)
      (zip ids mask).

Definition visualize_tokenization (ids mask : list Z) : string :=
  String.concat "|" (visualize_tokens ids mask).
End visualize.

(** ** A concrete tokenizer for the examples

    A byte-level encoding, as [train_from_iterator] builds one when no
    merge is learned: the 256 byte values, then the special tokens from
    [tokens_offset = 256] on. *)

Definition bytes_of (s : string) : list Z :=
  map (fun c => Z.of_nat (Ascii.nat_of_ascii c)) (String.list_ascii_of_string s).

Definition byte_enc : Encoding :=
  {| encode_ordinary := bytes_of;
     encode_ordinary_batch := map bytes_of;
     encode_single_token := fun name => special_tokens 256 !! name |}.

Definition byte_tok : RustBPETokenizer :=
  {| enc := byte_enc; bos_token_id := 256 |}.

Definition msg (r : string) (s : string) : message :=
  {| role := r; content := CStr s |}.

(** ** More example data *)

(** The ids [byte_tok] resolves the eight markers to. *)
Definition byte_special_ids : special_ids :=
  {| user_start := 257; user_end := 258;
     assistant_start := 259; assistant_end := 260;
     python_start := 261; python_end := 262;
     output_start := 263; output_end := 264 |}.

(** A user message of 2100 bytes: its render is cut at 2048. *)
Definition long_text : string :=
  String.string_of_list_ascii (replicate 2100 (Ascii.ascii_of_nat 97)).

(** An encoding object in which every name is the token 0, as
    [from_directory] may unpickle one. *)
Definition clash_enc : Encoding :=
  {| encode_ordinary := bytes_of;
     encode_ordinary_batch := map bytes_of;
     encode_single_token := fun _ => Some 0 |}.

(** What [__init__] makes of it. *)
Definition clash_tok : RustBPETokenizer :=
  {| enc := clash_enc; bos_token_id := 0 |}.

(** A conversation with a tool call and its output. *)
Definition tool_turn : message :=
  {| role := "assistant";
     content := CParts [ {| part_type := "text"; part_text := "a" |};
                         {| part_type := "python"; part_text := "b" |};
                         {| part_type := "python_output"; part_text := "c" |} ] |}.

(** An encoding object with the byte-level vocabulary and the one
    special token of a pretrained encoding. *)
Definition pretrained_enc : Encoding :=
  {| encode_ordinary := bytes_of;
     encode_ordinary_batch := map bytes_of;
     encode_single_token :=
       fun name => if String.eqb name "<|endoftext|>" then Some 50256 else None |}.

Definition pretrained_tok : RustBPETokenizer :=
  {| enc := pretrained_enc; bos_token_id := 50256 |}.

(** The 256 one-byte tokens with their byte value as rank. *)
Definition byte_ranks : list (string * Z) :=
  map (fun i : nat => (String (Ascii.ascii_of_nat i) EmptyString, Z.of_nat i))
      (seq 0 256).

(** A trainer that learns no merge. *)
Definition toy_train (vocab_size_no_special : Z) (pattern : string)
    : rustbpe_Tokenizer :=
  {| get_pattern := pattern; get_mergeable_ranks := byte_ranks |}.

(** An encoding object whose [encode_single_token] looks a piece up
    among the ordinary tokens, then among the special ones. *)
Definition toy_Encoding (name pat_str : string)
    (mergeable_ranks special_tokens : gmap string Z) : Encoding :=
  {| encode_ordinary := bytes_of;
     encode_ordinary_batch := map bytes_of;
     encode_single_token :=
       fun piece =>
         match mergeable_ranks !! piece with
         | Some rank => Some rank
         | None => special_tokens !! piece
         end |}.

(** A decoder for the examples: the bytes as characters. *)
Definition toy_decode (ids : list Z) : string :=
  String.string_of_list_ascii (map (fun id => Ascii.ascii_of_nat (Z.to_nat id)) ids).

(** * Vocabulary of the statements *)

(** A mask value is [0] or [1]. *)
Definition bit (b : Z) : Prop := b = 0 \/ b = 1.

(** What a piece appends: as many mask values as ids, each a bit. *)
Definition aligned (p : list Z * list Z) : Prop :=
  length p.1 = length p.2 /\ Forall bit p.2.

(** A piece [c] leaves what is already in [ids] and [mask] alone and
    appends its [chunk], or raises whatever the lists hold. *)
Definition appends (c : M unit) : Prop :=
  forall ids mask,
    c (ids, mask) =
    match chunk c with
    | inl e => inl e
    | inr (di, dm) => inr (tt, (ids ++ di, mask ++ dm))
    end.

(** A piece that only appends, and appends an aligned chunk. *)
Definition emits (c : M unit) : Prop :=
  appends c /\ forall p, chunk c = inr p -> aligned p.

(** How many elements [xs[:n]] keeps of a list of [len] elements. *)
Definition slice_len (n : Z) (len : nat) : nat :=
  if n <? 0 then Z.to_nat (Z.of_nat len + n) else Z.to_nat n.

(** The call returned. *)
Definition accepted {A} (r : result A) : Prop := exists a, r = inr a.

(** The part kinds the loop over parts knows. *)
Definition known_part (p : part) : bool :=
  String.eqb (part_type p) "text" ||
  String.eqb (part_type p) "python" ||
  String.eqb (part_type p) "python_output".

(** The content a message may hold, by its role. *)
Definition content_ok (m : message) : bool :=
  if String.eqb (role m) "user" then
    match content m with
    | CStr _ => true
    | _ => false
    end
  else
    match content m with
    | CStr _ => true
    | CParts ps => forallb known_part ps
    | _ => false
    end.

(** The malformed conversations: the first message is from the
    assistant; a leading system message has no user message after it; there
    is no message; a user message holds something else than a string; a
    content is neither a string nor a list; an assistant part has a kind
    the loop does not know. *)
Inductive malformed (conv : conversation) : Prop :=
| starts_with_assistant m rest :
    messages conv = m :: rest -> role m = "assistant" -> malformed conv
| system_not_followed_by_user m rest :
    messages conv = m :: rest -> role m = "system" ->
    (forall m1 rest', rest = m1 :: rest' -> role m1 <> "user") ->
    malformed conv
| empty_message_list :
    messages conv = [] -> malformed conv
| user_content_not_str m :
    m ∈ messages conv -> role m = "user" ->
    (forall s, content m <> CStr s) ->
    malformed conv
| unknown_content_type m :
    m ∈ messages conv ->
    (forall s, content m <> CStr s) -> (forall ps, content m <> CParts ps) ->
    malformed conv
| unknown_part_kind m ps p :
    m ∈ messages conv -> role m = "assistant" -> content m = CParts ps ->
    p ∈ ps -> known_part p = false ->
    malformed conv.

(** In the full emission [(fi, fm)] the ids [seg] stand at offset [off],
    all with mask [v]. *)
Definition placed (fi fm : list Z) (off : nat) (seg : list Z) (v : Z) : Prop :=
  exists a a' b b',
    fi = a ++ seg ++ b /\ fm = a' ++ replicate (length seg) v ++ b' /\
    length a = off /\ length a' = off.

(** In the returned lists, every position of [seg] that survived the
    truncation holds its id and the mask [v]. *)
Definition holds_at (ids mask : list Z) (off : nat) (seg : list Z) (v : Z) : Prop :=
  forall j : nat,
    (j < length seg)%nat -> (off + j < length ids)%nat ->
    ids !! (off + j)%nat = seg !! j /\ mask !! (off + j)%nat = Some v.

(** [prepend] or [append] names a special token the encoding object
    does not know. *)
Definition unknown_name (self : RustBPETokenizer) (a : option token_arg) : Prop :=
  exists name, a = Some (TokName name) /\ encode_single_token (enc self) name = None.

(** How many ids a part, a content and a list of messages add to [ids]. *)
Definition part_len (self : RustBPETokenizer) (p : part) : nat :=
  let n := length (encode_ordinary (enc self) (part_text p)) in
  if String.eqb (part_type p) "text" then n else (n + 2)%nat.

Definition content_len (self : RustBPETokenizer) (c : content_val) : nat :=
  match c with
  | CStr s => length (encode_ordinary (enc self) s)
  | CParts ps => sum_list (map (part_len self) ps)
  | _ => 0%nat
  end.

(** BOS, then for each message its two markers and its content. *)
Definition natural_length (self : RustBPETokenizer) (msgs : list message) : nat :=
  (1 + sum_list (map (fun m => 2 + content_len self (content m)) msgs))%nat.

(** The eight markers [render_conversation] resolves on every call. *)
Definition MARKERS : list string := tail SPECIAL_TOKENS.

(** * Properties *)

(** ** Results *)

Lemma rbind_inr {A B} (c : result A) (k : A -> result B) (b : B) :
  rbind c k = inr b -> exists a, c = inr a /\ k a = inr b.
Proof. destruct c as [e|a]; simpl; [discriminate | eauto]. Qed.

Lemma raised_inl {A} (e : exn) : raised (inl e : result A).
Proof. by exists e. Qed.

Lemma raised_rbind {A B} (c : result A) (k : A -> result B) :
  raised c -> raised (rbind c k).
Proof. intros [e ->]. apply raised_inl. Qed.

Lemma raised_rbind_k {A B} (c : result A) (k : A -> result B) :
  (forall a, raised (k a)) -> raised (rbind c k).
Proof. intros Hk. destruct c as [e|a]; [apply raised_inl | apply Hk]. Qed.

Lemma raised_not_inr {A} (r : result A) (a : A) : raised r -> r <> inr a.
Proof. intros [e ->]. discriminate. Qed.

Create HintDb raised.
#[local] Hint Resolve raised_inl raised_rbind raised_rbind_k : raised.

(** ** Pieces of the renderer only append *)

Lemma emits_appends (c : M unit) : emits c -> appends c.
Proof. by intros [H _]. Qed.

Lemma emits_aligned (c : M unit) p : emits c -> chunk c = inr p -> aligned p.
Proof. intros [_ H]. apply H. Qed.

(** The chunk of a sequence is the two chunks, one after the other. *)
Lemma chunk_seq (c1 c2 : M unit) :
  appends c2 ->
  chunk (c1 ;> c2) =
  let* p1 := chunk c1 in
  let* p2 := chunk c2 in
  inr (p1.1 ++ p2.1, p1.2 ++ p2.2).
Proof.
  intros H2. unfold chunk at 1 2, sbind.
  destruct (c1 ([], [])) as [e|[[] [i1 m1]]]; simpl; [done|].
  rewrite H2. destruct (chunk c2) as [e|[i2 m2]]; done.
Qed.

Lemma chunk_seq_inr (c1 c2 : M unit) ids mask :
  appends c2 ->
  chunk (c1 ;> c2) = inr (ids, mask) ->
  exists i1 m1 i2 m2,
    chunk c1 = inr (i1, m1) /\ chunk c2 = inr (i2, m2) /\
    ids = i1 ++ i2 /\ mask = m1 ++ m2.
Proof.
  intros H2 H. rewrite chunk_seq in H by done.
  destruct (chunk c1) as [e|[i1 m1]]; simpl in H; [done|].
  destruct (chunk c2) as [e|[i2 m2]]; simpl in H; [done|].
  inversion H. by exists i1, m1, i2, m2.
Qed.

Lemma aligned_app p1 p2 :
  aligned p1 -> aligned p2 -> aligned (p1.1 ++ p2.1, p1.2 ++ p2.2).
Proof.
  intros [L1 F1] [L2 F2]. split; simpl.
  - rewrite !length_app. congruence.
  - by apply Forall_app.
Qed.

Lemma appends_seq (c1 c2 : M unit) :
  appends c1 -> appends c2 -> appends (c1 ;> c2).
Proof.
  intros H1 H2 ids mask. rewrite chunk_seq by done.
  unfold sbind. rewrite H1.
  destruct (chunk c1) as [e|[i1 m1]]; simpl; [done|].
  rewrite H2. destruct (chunk c2) as [e|[i2 m2]]; simpl; [done|].
  by rewrite !app_assoc.
Qed.

Lemma emits_seq (c1 c2 : M unit) :
  emits c1 -> emits c2 -> emits (c1 ;> c2).
Proof.
  intros [A1 G1] [A2 G2]. split; [by apply appends_seq|].
  intros [ids mask] H.
  apply chunk_seq_inr in H as (i1 & m1 & i2 & m2 & E1 & E2 & -> & ->); [|done].
  apply (aligned_app (i1, m1) (i2, m2)); auto.
Qed.

Lemma emits_add_tokens (t : tokens_arg) (v : Z) :
  bit v -> emits (add_tokens t v).
Proof.
  intros Hv. split.
  - intros ids mask. by destruct t.
  - intros p H. unfold chunk in H. simpl in H. inversion H. split; simpl.
    + by rewrite length_replicate.
    + by apply Forall_replicate.
Qed.

Lemma emits_sret : emits (sret tt).
Proof.
  split.
  - intros ids mask. unfold chunk, sret. simpl. by rewrite !app_nil_r.
  - intros p H. inversion H. split; simpl; [done | constructor].
Qed.

Lemma emits_lift_unit (r : result unit) : emits (lift r).
Proof.
  split.
  - intros ids mask. unfold chunk, lift. destruct r as [e|[]]; simpl; [done|].
    by rewrite !app_nil_r.
  - intros p H. unfold chunk, lift in H. destruct r as [e|[]]; simpl in H; [done|].
    inversion H. split; simpl; [done | constructor].
Qed.

Lemma emits_bind_lift {A} (r : result A) (k : A -> M unit) :
  (forall a, emits (k a)) -> emits (do* a := lift r in k a).
Proof.
  intros Hk. destruct r as [e|a].
  - split; [by intros ids mask | by intros p H].
  - destruct (Hk a) as [Ha Ga]. split.
    + intros ids mask. unfold chunk, sbind, lift. simpl. apply Ha.
    + intros p H. apply Ga. exact H.
Qed.

Lemma bit_0 : bit 0.
Proof. by left. Qed.

Lemma bit_1 : bit 1.
Proof. by right. Qed.

Create HintDb emits.
#[local] Hint Resolve emits_seq emits_add_tokens emits_sret emits_lift_unit
  emits_bind_lift bit_0 bit_1 : emits.

Section render_emits.
Variable self : RustBPETokenizer.
Variable sp : special_ids.

Lemma emits_render_part p : emits (render_part self sp p).
Proof.
  unfold render_part. apply emits_bind_lift. intros value_ids.
  repeat case_match; auto 10 with emits.
Qed.

Lemma emits_render_parts ps : emits (render_parts self sp ps).
Proof.
  induction ps as [|p ps IH]; simpl; auto using emits_render_part with emits.
Qed.

Lemma emits_render_assistant_content c :
  emits (render_assistant_content self sp c).
Proof.
  destruct c; simpl; auto using emits_render_parts with emits.
Qed.

Lemma emits_render_message i m : emits (render_message self sp i m).
Proof.
  unfold render_message. apply emits_seq; [auto with emits|].
  repeat case_match; auto 10 using emits_render_assistant_content with emits.
Qed.

Lemma emits_render_messages i msgs : emits (render_messages self sp i msgs).
Proof.
  revert i. induction msgs as [|m msgs IH]; intros i; simpl;
    auto using emits_render_message with emits.
Qed.
End render_emits.

#[local] Hint Resolve emits_render_part emits_render_parts
  emits_render_assistant_content emits_render_message emits_render_messages : emits.
#[local] Hint Resolve emits_appends : emits.

(** ** Slices *)

Lemma py_slice_to_take {A} (n : Z) (xs : list A) :
  py_slice_to n xs = take (slice_len n (length xs)) xs.
Proof. unfold py_slice_to, slice_len. by destruct (n <? 0). Qed.

Lemma py_slice_to_nonneg {A} (n : Z) (xs : list A) :
  0 <= n -> py_slice_to n xs = take (Z.to_nat n) xs.
Proof.
  intros Hn. unfold py_slice_to. destruct (Z.ltb_spec n 0); [lia | done].
Qed.

Lemma py_slice_to_all {A} (n : Z) (xs : list A) :
  Z.of_nat (length xs) <= n -> py_slice_to n xs = xs.
Proof.
  intros Hn. rewrite py_slice_to_nonneg by lia. apply take_ge. lia.
Qed.

Lemma py_slice_to_length {A} (n : Z) (xs : list A) :
  0 <= n -> Z.of_nat (length (py_slice_to n xs)) = Z.min n (Z.of_nat (length xs)).
Proof.
  intros Hn. rewrite py_slice_to_nonneg by done. rewrite length_take. lia.
Qed.

Lemma py_slice_to_lookup {A} (n : Z) (xs : list A) (i : nat) :
  (i < length (py_slice_to n xs))%nat -> py_slice_to n xs !! i = xs !! i.
Proof.
  rewrite py_slice_to_take, length_take. intros Hi.
  apply lookup_take_lt. lia.
Qed.

(** ** What an accepted conversation went through *)

Lemma emit_inr self conv ids mask :
  emit self conv = inr (ids, mask) ->
  exists msgs sp i2 m2,
    merge_system conv = inr msgs /\ msgs <> [] /\
    fetch_special_ids self = inr sp /\
    chunk (render_messages self sp 0 msgs) = inr (i2, m2) /\
    ids = bos_token_id self :: i2 /\ mask = 0 :: m2 /\ aligned (i2, m2).
Proof.
  unfold emit. intros H.
  apply rbind_inr in H as (msgs & Hm & H).
  apply rbind_inr in H as ([] & Hlen & H).
  apply rbind_inr in H as (sp & Hsp & H).
  apply chunk_seq_inr in H as (i1 & m1 & i2 & m2 & E1 & E2 & -> & ->);
    [|auto with emits].
  inversion E1; subst i1 m1.
  exists msgs, sp, i2, m2. repeat split; try done.
  - intros ->. discriminate.
  - by apply (emits_aligned (render_messages self sp 0 msgs)); auto with emits.
  - by apply (emits_aligned (render_messages self sp 0 msgs)); auto with emits.
Qed.

Lemma render_conversation_inr self conv L ids mask :
  render_conversation self conv L = inr (ids, mask) ->
  exists fi fm,
    emit self conv = inr (fi, fm) /\
    ids = py_slice_to L fi /\ mask = py_slice_to L fm.
Proof.
  unfold render_conversation. intros H.
  apply rbind_inr in H as ([fi fm] & He & H). inversion H. by exists fi, fm.
Qed.

(** [C1] For an accepted conversation the two returned lists have the same
    length, every mask value is 0 or 1, the length is at most the bound
    [L] (a length bound is not negative), and when [L >= 1] position 0
    holds the BOS id with mask 0. *)
Theorem render_conversation_shape self conv L ids mask :
  render_conversation self conv L = inr (ids, mask) ->
  length ids = length mask /\
  Forall bit mask /\
  (0 <= L -> Z.of_nat (length ids) <= L) /\
  (1 <= L -> ids !! 0%nat = Some (bos_token_id self) /\ mask !! 0%nat = Some 0).
Proof.
  intros H.
  apply render_conversation_inr in H as (fi & fm & He & -> & ->).
  apply emit_inr in He as (msgs & sp & i2 & m2 & _ & _ & _ & _ & -> & -> & [Hl Hb]).
  simpl in Hl, Hb.
  rewrite !py_slice_to_take. simpl length. rewrite Hl.
  repeat split.
  - rewrite !length_take. simpl. lia.
  - apply Forall_take. constructor; [apply bit_0 | done].
  - intros HL. rewrite length_take. unfold slice_len.
    destruct (Z.ltb_spec L 0); lia.
  - unfold slice_len. destruct (Z.ltb_spec L 0); [lia|].
    destruct (Z.to_nat L) eqn:E; [lia | done].
  - unfold slice_len. destruct (Z.ltb_spec L 0); [lia|].
    destruct (Z.to_nat L) eqn:E; [lia | done].
Qed.

Lemma render_conversation_shape_witness :
  length [256; 257; 104; 105] = length [0; 0; 0; 0] /\
  Forall bit [0; 0; 0; 0] /\
  (0 <= 4 -> Z.of_nat (length [256; 257; 104; 105]) <= 4) /\
  (1 <= 4 ->
   [256; 257; 104; 105] !! 0%nat = Some (bos_token_id byte_tok) /\
   [0; 0; 0; 0] !! 0%nat = Some 0).
Proof.
  apply (render_conversation_shape byte_tok
           {| messages := [msg "user" "hi"; msg "assistant" "yo"] |} 4).
  vm_compute. reflexivity.
Defined.

(** ** Truncation *)

(** [C4] When the full emission has [N] elements, a bound [L' >= N]
    returns it whole and a bound [0 <= L < N] returns exactly its first
    [L] ids and its first [L] mask values; for every [L] the result is the
    slice [[:L]] of the full emission, whatever turn that cuts. *)
Theorem truncation_is_prefix self conv nat_ids nat_mask L L' :
  emit self conv = inr (nat_ids, nat_mask) ->
  0 <= L < Z.of_nat (length nat_ids) ->
  Z.of_nat (length nat_ids) <= L' ->
  render_conversation self conv L' = inr (nat_ids, nat_mask) /\
  render_conversation self conv L =
    inr (take (Z.to_nat L) nat_ids, take (Z.to_nat L) nat_mask) /\
  length (take (Z.to_nat L) nat_ids) = Z.to_nat L /\
  length (take (Z.to_nat L) nat_mask) = Z.to_nat L /\
  (forall n, render_conversation self conv n =
             inr (py_slice_to n nat_ids, py_slice_to n nat_mask)).
Proof.
  intros He HL HL'.
  pose proof (emit_inr _ _ _ _ He)
    as (msgs & sp & i2 & m2 & _ & _ & _ & _ & Ei & Em & [Hl _]).
  assert (Hlen : length nat_ids = length nat_mask)
    by (subst; simpl in *; congruence).
  unfold render_conversation. rewrite He. simpl.
  repeat split.
  - rewrite !py_slice_to_all by lia. done.
  - rewrite !py_slice_to_nonneg by lia. done.
  - rewrite length_take. lia.
  - rewrite length_take. lia.
Qed.

Lemma truncation_is_prefix_witness :
  render_conversation byte_tok
    {| messages := [msg "user" "hi"; msg "assistant" "yo"] |} 9 =
    inr ([256; 257; 104; 105; 258; 259; 121; 111; 260],
         [0; 0; 0; 0; 0; 0; 1; 1; 1]) /\
  render_conversation byte_tok
    {| messages := [msg "user" "hi"; msg "assistant" "yo"] |} 7 =
    inr ([256; 257; 104; 105; 258; 259; 121], [0; 0; 0; 0; 0; 0; 1]).
Proof.
  pose proof (truncation_is_prefix byte_tok
                {| messages := [msg "user" "hi"; msg "assistant" "yo"] |}
                [256; 257; 104; 105; 258; 259; 121; 111; 260]
                [0; 0; 0; 0; 0; 0; 1; 1; 1] 7 9) as H.
  destruct H as (H1 & H2 & _).
  - vm_compute. reflexivity.
  - simpl. lia.
  - simpl. lia.
  - split; [exact H1 | exact H2].
Defined.

(** ** The system message *)

Lemma append_assoc (a b c : string) : (a +:+ b) +:+ c = a +:+ (b +:+ c).
Proof.
  induction a as [|x a IH]; [done|].
  change (String x ((a +:+ b) +:+ c) = String x (a +:+ (b +:+ c))).
  by f_equal.
Qed.

(** [C3] A conversation that starts with a system message followed by a
    user message renders, at every bound, to the same result (the same
    pair, or the same error) as the conversation without the system
    message whose first user message holds the system text, two line
    feeds and the user text. *)
Theorem system_message_merge self conv m0 m1 rest S U L :
  messages conv = m0 :: m1 :: rest ->
  role m0 = "system" ->
  role m1 = "user" ->
  content m0 = CStr S ->
  content m1 = CStr U ->
  render_conversation self conv L =
  render_conversation self
    {| messages := {| role := "user"; content := CStr (S +:+ newline2 +:+ U) |} :: rest |} L.
Proof.
  intros Hm R0 R1 C0 C1.
  unfold render_conversation, emit, merge_system.
  rewrite Hm, R0, R1, C0, C1. simpl.
  by rewrite append_assoc.
Qed.

Lemma system_message_merge_witness :
  render_conversation byte_tok
    {| messages := [msg "system" "S"; msg "user" "hi"; msg "assistant" "yo"] |} 2048 =
  render_conversation byte_tok
    {| messages := [msg "user" ("S" +:+ newline2 +:+ "hi"); msg "assistant" "yo"] |} 2048.
Proof.
  apply (system_message_merge byte_tok
           {| messages := [msg "system" "S"; msg "user" "hi"; msg "assistant" "yo"] |}
           (msg "system" "S") (msg "user" "hi") [msg "assistant" "yo"] "S" "hi" 2048);
    reflexivity.
Defined.

(** ** The completion renderer *)

Lemma fetch_special_ids_assistant_start self sp :
  fetch_special_ids self = inr sp ->
  encode_special self "<|assistant_start|>" = inr (assistant_start sp).
Proof.
  unfold fetch_special_ids. intros H.
  repeat (apply rbind_inr in H as (? & ? & H)).
  inversion H; subst; simpl. done.
Qed.

Lemma render_conversation_assistant_start self conv L ids mask :
  render_conversation self conv L = inr (ids, mask) ->
  exists a, encode_special self "<|assistant_start|>" = inr a.
Proof.
  intros H. apply render_conversation_inr in H as (fi & fm & He & _).
  apply emit_inr in He as (msgs & sp & _ & _ & _ & _ & Hsp & _).
  eauto using fetch_special_ids_assistant_start.
Qed.

(** With the last message split off, [render_for_completion] is the
    renderer at its default bound on the rest, then one more id. *)
Lemma render_for_completion_snoc self conv init m :
  messages conv = init ++ [m] ->
  role m = "assistant" ->
  render_for_completion self conv =
  let* r := render_conversation self {| messages := init |} 2048 in
  let* a := encode_special self "<|assistant_start|>" in
  inr (r.1 ++ [a]).
Proof.
  intros Hm Hr. unfold render_for_completion.
  rewrite Hm, last_snoc, Hr, removelast_last. simpl.
  destruct (render_conversation self {| messages := init |} 2048) as [e|[ids mask]];
    done.
Qed.

(** [C5] When the final message is from the assistant, the completion
    renderer returns the ids the conversation renderer gives for the
    conversation without it, followed by the assistant-start id; what it
    returns does not depend on the removed message; and it raises when the
    final message is not from the assistant, when there is no message, and
    when removing the final message leaves none. *)
Theorem render_for_completion_spec self :
  (forall conv init m ids mask,
      messages conv = init ++ [m] ->
      role m = "assistant" ->
      render_conversation self {| messages := init |} 2048 = inr (ids, mask) ->
      exists a,
        encode_special self "<|assistant_start|>" = inr a /\
        render_for_completion self conv = inr (ids ++ [a])) /\
  (forall conv init m e,
      messages conv = init ++ [m] ->
      role m = "assistant" ->
      render_conversation self {| messages := init |} 2048 = inl e ->
      render_for_completion self conv = inl e) /\
  (forall conv conv' init m m',
      messages conv = init ++ [m] ->
      messages conv' = init ++ [m'] ->
      role m = "assistant" ->
      role m' = "assistant" ->
      render_for_completion self conv = render_for_completion self conv') /\
  (forall conv m,
      last (messages conv) = Some m ->
      role m <> "assistant" ->
      render_for_completion self conv = inl AssertionError) /\
  (forall conv,
      messages conv = [] ->
      render_for_completion self conv = inl IndexError) /\
  (forall conv m,
      messages conv = [m] ->
      raised (render_for_completion self conv)).
Proof.
  repeat split.
  - intros conv init m ids mask Hm Hr Hc.
    destruct (render_conversation_assistant_start _ _ _ _ _ Hc) as [a Ha].
    exists a. split; [done|].
    rewrite (render_for_completion_snoc self conv init m) by done.
    rewrite Hc, Ha. done.
  - intros conv init m e Hm Hr Hc.
    rewrite (render_for_completion_snoc self conv init m) by done.
    by rewrite Hc.
  - intros conv conv' init m m' Hm Hm' Hr Hr'.
    rewrite (render_for_completion_snoc self conv init m) by done.
    by rewrite (render_for_completion_snoc self conv' init m') by done.
  - intros conv m Hl Hr. unfold render_for_completion. rewrite Hl.
    apply String.eqb_neq in Hr. by rewrite Hr.
  - intros conv Hm. unfold render_for_completion. by rewrite Hm.
  - intros conv m Hm. unfold render_for_completion. rewrite Hm. simpl.
    destruct (String.eqb (role m) "assistant"); simpl; apply raised_inl.
Qed.

Lemma render_for_completion_spec_witness :
  render_for_completion byte_tok
    {| messages := [msg "user" "hi"; msg "assistant" "yo"] |} =
  inr ([256; 257; 104; 105; 258] ++ [259]).
Proof.
  destruct (render_for_completion_spec byte_tok) as (H & _).
  destruct (H {| messages := [msg "user" "hi"; msg "assistant" "yo"] |}
              [msg "user" "hi"] (msg "assistant" "yo")
              [256; 257; 104; 105; 258] [0; 0; 0; 0; 0]) as (a & Ha & Hr).
  - reflexivity.
  - reflexivity.
  - vm_compute. reflexivity.
  - rewrite Hr. f_equal. f_equal.
    assert (E : inr a = (inr 259 : result Z)) by (rewrite <- Ha; vm_compute; reflexivity).
    inversion E. reflexivity.
Defined.

(** [C9] Whatever the completion renderer returns ends with the
    assistant-start id and has at most 2049 elements: it is the render of
    the conversation without its final message at the bound 2048, with
    that one id appended after the truncation. *)
Theorem render_for_completion_bound self conv ids :
  render_for_completion self conv = inr ids ->
  exists init m rids rmask a,
    messages conv = init ++ [m] /\
    render_conversation self {| messages := init |} 2048 = inr (rids, rmask) /\
    encode_special self "<|assistant_start|>" = inr a /\
    ids = rids ++ [a] /\
    last ids = Some a /\
    (length rids <= 2048)%nat /\
    (length ids <= 2049)%nat.
Proof.
  unfold render_for_completion. intros H.
  destruct (last (messages conv)) as [m|] eqn:Hl; [|done].
  apply last_Some in Hl as [init Hm].
  apply rbind_inr in H as ([] & Hr & H).
  rewrite Hm, removelast_last in H.
  apply rbind_inr in H as ([rids rmask] & Hc & H).
  apply rbind_inr in H as (a & Ha & H).
  inversion H; subst ids.
  assert (Hb : (length rids <= 2048)%nat).
  { apply render_conversation_inr in Hc as (fi & fm & _ & -> & _).
    pose proof (py_slice_to_length 2048 fi). lia. }
  exists init, m, rids, rmask, a. repeat split; try done.
  - by rewrite last_snoc.
  - rewrite length_app. simpl. lia.
Qed.

Lemma render_for_completion_bound_witness :
  let ids := (256 :: 257 :: replicate 2046 97) ++ [259] in
  exists init m rids rmask a,
    [msg "user" long_text; msg "assistant" "yo"] = init ++ [m] /\
    render_conversation byte_tok {| messages := init |} 2048 = inr (rids, rmask) /\
    encode_special byte_tok "<|assistant_start|>" = inr a /\
    ids = rids ++ [a] /\
    last ids = Some a /\
    (length rids <= 2048)%nat /\
    (length ids <= 2049)%nat.
Proof.
  apply (render_for_completion_bound byte_tok
           {| messages := [msg "user" long_text; msg "assistant" "yo"] |}).
  vm_compute. reflexivity.
Defined.

(** ** Which message lists the loop accepts *)

Lemma accepted_or_raised {A} (r : result A) : accepted r \/ raised r.
Proof. destruct r as [e|a]; [right | left]; eauto using raised_inl. by exists a. Qed.

Lemma accepted_seq (c1 c2 : M unit) :
  appends c2 ->
  accepted (chunk (c1 ;> c2)) <-> accepted (chunk c1) /\ accepted (chunk c2).
Proof.
  intros H2. rewrite chunk_seq by done.
  split.
  - intros [a H].
    destruct (chunk c1) as [e1|p1], (chunk c2) as [e2|p2]; simpl in H; try done.
    split; by eexists.
  - intros [[a1 E1] [a2 E2]]. rewrite E1, E2. simpl. by eexists.
Qed.

Lemma encode_text_eq self s :
  encode_text self s = inr (encode_ordinary (enc self) s).
Proof. reflexivity. Qed.

Section render_accepts.
Variable self : RustBPETokenizer.
Variable sp : special_ids.

Lemma chunk_render_part_text p :
  part_type p = "text" ->
  chunk (render_part self sp p) =
  inr (encode_ordinary (enc self) (part_text p), replicate (length (encode_ordinary (enc self) (part_text p))) 1).
Proof. intros H. unfold render_part. rewrite H. reflexivity. Qed.

Lemma chunk_render_part_python p :
  part_type p = "python" ->
  chunk (render_part self sp p) =
  inr (python_start sp :: encode_ordinary (enc self) (part_text p) ++ [python_end sp],
       replicate (length (python_start sp :: encode_ordinary (enc self) (part_text p) ++ [python_end sp])) 1).
Proof.
  intros H. unfold render_part. rewrite H. unfold chunk. simpl.
  rewrite length_app, Nat.add_1_r. simpl. by rewrite replicate_cons_app.
Qed.

Lemma chunk_render_part_python_output p :
  part_type p = "python_output" ->
  chunk (render_part self sp p) =
  inr (output_start sp :: encode_ordinary (enc self) (part_text p) ++ [output_end sp],
       replicate (length (output_start sp :: encode_ordinary (enc self) (part_text p) ++ [output_end sp])) 0).
Proof.
  intros H. unfold render_part. rewrite H. unfold chunk. simpl.
  rewrite length_app, Nat.add_1_r. simpl. by rewrite replicate_cons_app.
Qed.

Lemma chunk_render_part_unknown p :
  known_part p = false -> chunk (render_part self sp p) = inl ValueError.
Proof.
  unfold known_part, render_part. intros H.
  apply orb_false_elim in H as [H H3]. apply orb_false_elim in H as [H1 H2].
  by rewrite H1, H2, H3.
Qed.

Lemma accepted_render_part p :
  accepted (chunk (render_part self sp p)) <-> known_part p = true.
Proof.
  split.
  - intros Ha. destruct (known_part p) eqn:E; [done|].
    rewrite chunk_render_part_unknown in Ha by done. by destruct Ha.
  - unfold known_part. intros H.
    apply orb_true_iff in H as [H|H]; [apply orb_true_iff in H as [H|H]|];
      apply String.eqb_eq in H.
    + rewrite chunk_render_part_text by done. by eexists.
    + rewrite chunk_render_part_python by done. by eexists.
    + rewrite chunk_render_part_python_output by done. by eexists.
Qed.

Lemma accepted_render_parts ps :
  accepted (chunk (render_parts self sp ps)) <-> forallb known_part ps = true.
Proof.
  induction ps as [|p ps IH]; simpl.
  - split; [done | by eexists].
  - rewrite accepted_seq by auto with emits.
    rewrite accepted_render_part, IH, andb_true_iff. done.
Qed.
Lemma accepted_render_assistant_content c :
  accepted (chunk (render_assistant_content self sp c)) <->
  match c with
  | CStr _ => True
  | CParts ps => forallb known_part ps = true
  | _ => False
  end.
Proof.
  destruct c as [s|ps|z|]; simpl.
  - split; [done | intros _; by eexists].
  - apply accepted_render_parts.
  - split; [by intros [a H] | done].
  - split; [by intros [a H] | done].
Qed.

Lemma chunk_render_message_user i m s :
  must_be_from i = "user" ->
  role m = "user" ->
  content m = CStr s ->
  chunk (render_message self sp i m) =
  inr (user_start sp :: encode_ordinary (enc self) s ++ [user_end sp],
       replicate (length (user_start sp :: encode_ordinary (enc self) s ++ [user_end sp])) 0).
Proof.
  intros Hi Hr Hc. unfold render_message. rewrite Hi, Hr, Hc.
  unfold chunk. simpl.
  rewrite length_app, Nat.add_1_r. simpl. by rewrite replicate_cons_app.
Qed.

(** An assistant message is its start marker with mask 0, its content,
    and its end marker with mask 1. *)
Lemma chunk_render_message_assistant i m :
  must_be_from i = "assistant" ->
  role m = "assistant" ->
  chunk (render_message self sp i m) =
  let* body := chunk (render_assistant_content self sp (content m)) in
  inr (assistant_start sp :: body.1 ++ [assistant_end sp], 0 :: body.2 ++ [1]).
Proof.
  intros Hi Hr. unfold render_message. rewrite Hi, Hr.
  change (String.eqb "assistant" "user") with false.
  change (String.eqb "assistant" "assistant") with true. cbv iota.
  rewrite !chunk_seq by auto 10 with emits.
  destruct (chunk (render_assistant_content self sp (content m))) as [e|[bi bm]];
    done.
Qed.

Lemma must_be_from_cases i :
  must_be_from i = "user" \/ must_be_from i = "assistant".
Proof. unfold must_be_from. destruct (i mod 2 =? 0)%nat; auto. Qed.

Lemma chunk_render_message_wrong_role i m :
  role m <> must_be_from i ->
  chunk (render_message self sp i m) = inl AssertionError.
Proof.
  intros H. apply String.eqb_neq in H.
  unfold render_message, chunk, sbind, lift. by rewrite H.
Qed.

Lemma accepted_render_message i m :
  accepted (chunk (render_message self sp i m)) <->
  role m = must_be_from i /\ content_ok m = true.
Proof.
  destruct (String.eqb_spec (role m) (must_be_from i)) as [Hr|Hr].
  - destruct (must_be_from_cases i) as [Hi|Hi]; rewrite Hi in Hr.
    + unfold content_ok. rewrite Hr. simpl.
      destruct (content m) as [s|ps|z|] eqn:Hc.
      * rewrite (chunk_render_message_user i m s) by done.
        split; [by rewrite Hi | intros _; by eexists].
      * unfold render_message, chunk, sbind, lift. rewrite Hi, Hr, Hc. simpl.
        split; [by intros [a H] | by intros [_ H]].
      * unfold render_message, chunk, sbind, lift. rewrite Hi, Hr, Hc. simpl.
        split; [by intros [a H] | by intros [_ H]].
      * unfold render_message, chunk, sbind, lift. rewrite Hi, Hr, Hc. simpl.
        split; [by intros [a H] | by intros [_ H]].
    + rewrite chunk_render_message_assistant by done.
      unfold content_ok. rewrite Hr, Hi. simpl.
      pose proof (accepted_render_assistant_content (content m)) as Hb.
      destruct (chunk (render_assistant_content self sp (content m))) as [e|body];
        simpl.
      * split; [by intros [a H]|]. intros [_ H].
        destruct Hb as [_ Hb]. destruct (content m); try done.
        -- by destruct Hb.
        -- by destruct (Hb H).
      * split; [|intros _; by eexists]. intros _. split; [done|].
        destruct Hb as [Hb _]. destruct (content m); try done.
        -- apply Hb. by eexists.
        -- destruct Hb. by eexists.
        -- destruct Hb. by eexists.
  - rewrite chunk_render_message_wrong_role by done.
    split; [by intros [a H] | by intros [H _]].
Qed.

Lemma accepted_render_messages i msgs :
  accepted (chunk (render_messages self sp i msgs)) <->
  forall k m, msgs !! k = Some m ->
              role m = must_be_from (i + k) /\ content_ok m = true.
Proof.
  revert i. induction msgs as [|m0 msgs IH]; intros i; simpl.
  - split; [done | intros _; by eexists].
  - rewrite accepted_seq by auto with emits.
    rewrite accepted_render_message, IH. split.
    + intros [H0 Hrest] [|k] m Hk; simpl in Hk.
      * inversion Hk; subst. by rewrite Nat.add_0_r.
      * rewrite <- Nat.add_succ_comm. by apply Hrest.
    + intros H. split.
      * rewrite <- (Nat.add_0_r i). by apply (H 0%nat).
      * intros k m Hk. rewrite Nat.add_succ_comm. by apply (H (S k)).
Qed.
End render_accepts.

Lemma merge_system_inr conv msgs :
  merge_system conv = inr msgs ->
  (exists m0 tl,
      messages conv = m0 :: tl /\ role m0 <> "system" /\ msgs = messages conv) \/
  (exists m0 m1 rest S U,
      messages conv = m0 :: m1 :: rest /\
      role m0 = "system" /\ role m1 = "user" /\
      content m0 = CStr S /\ content m1 = CStr U /\
      msgs = {| role := role m1; content := CStr ((S +:+ newline2) +:+ U) |} :: rest).
Proof.
  unfold merge_system. destruct (messages conv) as [|m0 tl] eqn:Hm; [done|].
  destruct (String.eqb_spec (role m0) "system") as [R0|R0].
  - destruct tl as [|m1 rest]; [done|].
    destruct (String.eqb_spec (role m1) "user") as [R1|R1]; [|done]. simpl.
    destruct (content m0) as [S| | |] eqn:C0; try done.
    destruct (content m1) as [U| | |] eqn:C1; try done. simpl.
    intros H. inversion H. right. by exists m0, m1, rest, S, U.
  - intros H. inversion H. left. by exists m0, tl.
Qed.

Lemma accepted_emit self sp conv msgs :
  fetch_special_ids self = inr sp ->
  merge_system conv = inr msgs ->
  accepted (emit self conv) <->
  msgs <> [] /\
  forall k m, msgs !! k = Some m -> role m = must_be_from k /\ content_ok m = true.
Proof.
  intros Hsp Hm. unfold emit. rewrite Hm, Hsp. simpl.
  destruct msgs as [|m0 msgs]; simpl.
  - split; [by intros [a H] | by intros [H _]].
  - rewrite accepted_seq by auto with emits.
    rewrite (accepted_render_messages self sp 0 (m0 :: msgs)). split.
    + intros [_ H]. split; [done | exact H].
    + intros [_ H]. split; [by eexists | exact H].
Qed.

Lemma accepted_render_conversation self conv L :
  accepted (render_conversation self conv L) <-> accepted (emit self conv).
Proof.
  unfold render_conversation.
  destruct (emit self conv) as [e|[ids mask]]; simpl; split; intros [a H]; try done;
    by eexists.
Qed.

(** What acceptance says about the messages the caller passed. *)
Lemma accepted_messages self conv L :
  accepted (render_conversation self conv L) ->
  (exists m rest,
      messages conv = m :: rest /\
      (role m = "user" \/
       role m = "system" /\ exists m1 rest', rest = m1 :: rest' /\ role m1 = "user")) /\
  (forall m, m ∈ messages conv -> content_ok m = true).
Proof.
  rewrite accepted_render_conversation. intros Ha.
  destruct (emit self conv) as [e|[ids mask]] eqn:He; [by destruct Ha|].
  apply emit_inr in He as (msgs & sp & i2 & m2 & Hm & Hne & Hsp & Hc & _).
  assert (Hok : forall k m, msgs !! k = Some m ->
                            role m = must_be_from k /\ content_ok m = true).
  { apply (accepted_render_messages self sp 0 msgs). by eexists. }
  apply merge_system_inr in Hm
    as [(m0 & tl & Hm & R0 & ->)|(m0 & m1 & rest & s0 & s1 & Hm & R0 & R1 & C0 & C1 & ->)].
  - rewrite Hm in *. split.
    + exists m0, tl. split; [done|]. left. by apply (Hok 0%nat).
    + intros m [k Hk]%list_elem_of_lookup. by apply (Hok k).
  - rewrite Hm. split.
    + exists m0, (m1 :: rest). split; [done|]. right. split; [done|]. by exists m1, rest.
    + intros m Hin. apply elem_of_cons in Hin as [->|Hin];
        [|apply elem_of_cons in Hin as [->|Hin]].
      * unfold content_ok. by rewrite R0, C0.
      * unfold content_ok. by rewrite R1, C1.
      * apply list_elem_of_lookup in Hin as [k Hk]. by apply (Hok (S k)).
Qed.

(** ** Malformed conversations *)

(** [C6] A malformed conversation (first message from the assistant, a
    leading system message with no user message after it, no message, a
    user message whose content is not a string, a content that is neither a
    string nor a list, an assistant part of an unknown kind) makes the
    renderer raise, for every tokenizer and every bound: no pair comes
    back. *)
Theorem malformed_rejected conv :
  malformed conv ->
  forall self L,
    raised (render_conversation self conv L) /\
    forall ids mask, render_conversation self conv L <> inr (ids, mask).
Proof.
  intros Hbad self L.
  assert (Hr : raised (render_conversation self conv L)).
  { destruct (accepted_or_raised (render_conversation self conv L)) as [Ha|]; [|done].
    exfalso. apply accepted_messages in Ha as [(m0 & rest0 & Hm & Hhead) Hok].
    destruct Hbad as [m rest Hm' R|m rest Hm' R Hnext|Hm'|m Hin R Hc|m Hin Hs Hp
                     |m ps p Hin R Hc Hp Hk].
    - rewrite Hm in Hm'. inversion Hm'; subst.
      destruct Hhead as [H|[H _]]; rewrite R in H; discriminate.
    - rewrite Hm in Hm'. inversion Hm'; subst.
      destruct Hhead as [H|[_ (m1 & rest' & -> & R1)]].
      + rewrite R in H. discriminate.
      + by apply (Hnext m1 rest').
    - rewrite Hm in Hm'. discriminate.
    - specialize (Hok m Hin). unfold content_ok in Hok. rewrite R in Hok.
      simpl in Hok. destruct (content m) as [s| | |]; try done. by apply (Hc s).
    - specialize (Hok m Hin). unfold content_ok in Hok.
      destruct (content m) as [s|ps|z|].
      + by apply (Hs s).
      + by apply (Hp ps).
      + by destruct (String.eqb (role m) "user").
      + by destruct (String.eqb (role m) "user").
    - specialize (Hok m Hin). unfold content_ok in Hok. rewrite R, Hc in Hok.
      simpl in Hok. rewrite forallb_forall in Hok.
      apply list_elem_of_In in Hp. specialize (Hok p Hp). congruence. }
  split; [done|]. intros ids mask. by apply raised_not_inr.
Qed.

Lemma malformed_rejected_witness :
  raised (render_conversation byte_tok
            {| messages := [msg "assistant" "yo"; msg "user" "hi"] |} 2048) /\
  forall ids mask,
    render_conversation byte_tok
      {| messages := [msg "assistant" "yo"; msg "user" "hi"] |} 2048 <> inr (ids, mask).
Proof.
  apply (malformed_rejected {| messages := [msg "assistant" "yo"; msg "user" "hi"] |}).
  apply (starts_with_assistant _ (msg "assistant" "yo") [msg "user" "hi"]);
    reflexivity.
Defined.

(** ** Role alternation *)

Lemma py_slice_to_replicate (n : Z) (len : nat) (v : Z) (xs : list Z) :
  length xs = len ->
  py_slice_to n (replicate len v) = replicate (length (py_slice_to n xs)) v.
Proof.
  intros Hl. rewrite !py_slice_to_take, length_replicate, take_replicate.
  by rewrite length_take, Hl.
Qed.

Lemma mod2_even (k : nat) : (k mod 2 =? 0)%nat = Nat.even k.
Proof.
  rewrite (Nat.div_mod_eq k 2) at 2.
  rewrite Nat.add_comm, Nat.even_add_mul_2.
  pose proof (Nat.mod_upper_bound k 2).
  destruct (k mod 2)%nat as [|[|]]; [done | done | lia].
Qed.

(** [C10] With the special tokens resolved, a conversation is accepted
    exactly when the list the loop runs over is not empty and each message
    at an even index is from the user with a string content and each at
    an odd index from the assistant with a string or a list of known
    parts: nothing is asked of the last message.  A conversation of one
    user message with a string content is accepted, and its mask is 0
    everywhere. *)
Theorem role_alternation_only self sp :
  fetch_special_ids self = inr sp ->
  (forall conv msgs L,
      merge_system conv = inr msgs ->
      accepted (render_conversation self conv L) <->
      msgs <> [] /\
      forall k m, msgs !! k = Some m ->
                  role m = (if Nat.even k then "user" else "assistant") /\
                  content_ok m = true) /\
  (forall s L,
      exists ids,
        render_conversation self {| messages := [msg "user" s] |} L =
        inr (ids, replicate (length ids) 0)).
Proof.
  intros Hsp. split.
  - intros conv msgs L Hm.
    rewrite accepted_render_conversation, (accepted_emit self sp conv msgs) by done.
    assert (Hmbf : forall k, must_be_from k = if Nat.even k then "user" else "assistant").
    { intros k. unfold must_be_from. by rewrite mod2_even. }
    split; intros [Hne H]; (split; [done|]); intros k m Hk;
      specialize (H k m Hk); by rewrite ?Hmbf in *.
  - intros s L. unfold render_conversation, emit. simpl. rewrite Hsp. simpl.
    set (v := encode_ordinary (enc self) s).
    eexists. f_equal. f_equal.
    change (0 :: 0 :: replicate (length v) 0 ++ [0])
      with (replicate 2 0 ++ replicate (length v) 0 ++ replicate 1 0).
    rewrite <- !replicate_add.
    apply py_slice_to_replicate. simpl. rewrite length_app. simpl. lia.
Qed.

Lemma role_alternation_only_witness :
  exists ids,
    render_conversation byte_tok {| messages := [msg "user" "hi"] |} 2048 =
    inr (ids, replicate (length ids) 0).
Proof.
  destruct (role_alternation_only byte_tok byte_special_ids) as [_ H].
  - vm_compute. reflexivity.
  - apply H.
Defined.

(** ** [encode] *)

Lemma front_back_option_list (p a : option Z) (ids : list Z) :
  append_back a (insert_front p ids) = option_list p ++ ids ++ option_list a.
Proof. destruct p, a; simpl; by rewrite ?app_nil_r. Qed.

(** [C8] With [prepend] and [append] resolved to [p] and [a] (absent, an
    id as given, or the id of a special token): a string gives its
    ordinary encoding with [p] in front and [a] at the end; a list gives
    one row per text, in order, each row what the same call returns for
    that text alone (the batch entry point of the encoding object encodes
    each text as the single one does); any other input raises
    [ValueError], and whatever [prepend] and [append] are it raises. *)
Theorem encode_spec self prepend append p a :
  (forall l, encode_ordinary_batch (enc self) l = map (encode_ordinary (enc self)) l) ->
  resolve self prepend = inr p ->
  resolve self append = inr a ->
  (is_Some p <-> is_Some prepend) /\
  (is_Some a <-> is_Some append) /\
  (forall s,
      encode self (TStr s) prepend append =
      inr (EIds (option_list p ++ encode_ordinary (enc self) s ++ option_list a))) /\
  (forall l,
      exists rows,
        encode self (TList l) prepend append = inr (ERows rows) /\
        length rows = length l /\
        forall k s, l !! k = Some s ->
          exists row,
            rows !! k = Some row /\
            encode self (TStr s) prepend append = inr (EIds row)) /\
  encode self TOther prepend append = inl ValueError /\
  (forall prepend' append', raised (encode self TOther prepend' append')).
Proof.
  intros Hbatch Hp Ha.
  assert (Hstr : forall s,
             encode self (TStr s) prepend append =
             inr (EIds (option_list p ++ encode_ordinary (enc self) s ++ option_list a))).
  { intros s. unfold encode. rewrite Hp, Ha. simpl.
    by rewrite front_back_option_list. }
  assert (Hsome : forall (x : option token_arg) (r : option Z),
             resolve self x = inr r -> is_Some r <-> is_Some x).
  { intros [[id|name]|] r H; simpl in H.
    - inversion H. split; eauto.
    - apply rbind_inr in H as (id & _ & H). inversion H. split; eauto.
    - inversion H. split; by intros [? ?]. }
  repeat split; try (by apply (Hsome _ _ Hp)); try (by apply (Hsome _ _ Ha)).
  - exact Hstr.
  - intros l. eexists. split; [|split].
    + unfold encode. rewrite Hp, Ha. simpl. reflexivity.
    + by rewrite !length_map, Hbatch, length_map.
    + intros k s Hk. rewrite Hstr, Hbatch.
      eexists. split; [|reflexivity].
      rewrite !list_lookup_fmap, Hk. simpl. by rewrite front_back_option_list.
  - unfold encode. by rewrite Hp, Ha.
  - intros prepend' append'. unfold encode.
    apply raised_rbind_k. intros p'. apply raised_rbind_k. intros a'.
    apply raised_inl.
Qed.

Lemma encode_spec_witness :
  encode byte_tok (TStr "hi") (Some (TokName "<|bos|>")) (Some (TokId 7)) =
  inr (EIds (option_list (Some 256) ++ bytes_of "hi" ++ option_list (Some 7))).
Proof.
  destruct (encode_spec byte_tok (Some (TokName "<|bos|>")) (Some (TokId 7))
              (Some 256) (Some 7)) as (_ & _ & H & _).
  - reflexivity.
  - vm_compute. reflexivity.
  - reflexivity.
  - apply H.
Defined.

(** ** The ids of the special tokens *)

Lemma special_tokens_from_other off i names d (n : string) :
  n ∉ names -> special_tokens_from off i names d !! n = d !! n.
Proof.
  revert i d. induction names as [|x names IH]; intros i d Hn; simpl; [done|].
  apply not_elem_of_cons in Hn as [Hx Hn].
  rewrite IH by done. by rewrite lookup_insert_ne.
Qed.

Lemma special_tokens_from_index off i names d (k : nat) (n : string) :
  NoDup names ->
  names !! k = Some n ->
  special_tokens_from off i names d !! n = Some (off + (i + Z.of_nat k)).
Proof.
  revert i d k. induction names as [|x names IH]; intros i d k Hnd Hk; [done|].
  apply NoDup_cons in Hnd as [Hx Hnd]. destruct k as [|k]; simpl in *.
  - inversion Hk; subst x.
    rewrite special_tokens_from_other by done.
    rewrite lookup_insert_eq. f_equal. lia.
  - rewrite (IH _ _ k) by done. f_equal. lia.
Qed.

Lemma SPECIAL_TOKENS_NoDup : NoDup SPECIAL_TOKENS.
Proof. compute_done. Qed.

Lemma special_tokens_lookup_Some off (n : string) (id : Z) :
  special_tokens off !! n = Some id ->
  exists k : nat, SPECIAL_TOKENS !! k = Some n /\ id = off + Z.of_nat k.
Proof.
  unfold special_tokens. intros H.
  destruct (decide (n ∈ SPECIAL_TOKENS)) as [Hin|Hout].
  - apply list_elem_of_lookup in Hin as [k Hk]. exists k. split; [done|].
    rewrite (special_tokens_from_index off 0 SPECIAL_TOKENS ∅ k n) in H
      by auto using SPECIAL_TOKENS_NoDup.
    inversion H. lia.
  - rewrite special_tokens_from_other in H by done. by rewrite lookup_empty in H.
Qed.

(** [C7], as stated, fails: [__init__] accepts an encoding object in
    which two special tokens have the same id, and the renderer then uses
    that id for both without raising. *)
Lemma init_accepts_clashing_ids :
  init clash_enc "<|bos|>" = inr clash_tok /\
  encode_special clash_tok "<|user_start|>" = inr 0 /\
  encode_special clash_tok "<|user_end|>" = inr 0 /\
  render_conversation clash_tok {| messages := [msg "user" "hi"] |} 2048 =
    inr ([0; 0; 104; 105; 0], [0; 0; 0; 0; 0]).
Proof. repeat split; vm_compute; reflexivity. Qed.

(** [C7], amended: the dictionary [train_from_iterator] builds gives the
    special token at index [k] of the catalog the id [tokens_offset + k],
    so two different names never get the same id there; [__init__] only
    resolves the BOS name and succeeds as soon as that one resolves. *)
Theorem special_tokens_distinct tokens_offset :
  (forall (k : nat) name,
      SPECIAL_TOKENS !! k = Some name ->
      special_tokens tokens_offset !! name = Some (tokens_offset + Z.of_nat k)) /\
  (forall n1 n2 id1 id2,
      special_tokens tokens_offset !! n1 = Some id1 ->
      special_tokens tokens_offset !! n2 = Some id2 ->
      n1 <> n2 -> id1 <> id2) /\
  (forall e bos_token id,
      encode_single_token e bos_token = Some id ->
      init e bos_token = inr {| enc := e; bos_token_id := id |}).
Proof.
  repeat split.
  - intros k name Hk. unfold special_tokens.
    by rewrite (special_tokens_from_index _ 0 _ _ k name)
      by auto using SPECIAL_TOKENS_NoDup.
  - intros n1 n2 id1 id2 H1 H2 Hne Heq.
    apply special_tokens_lookup_Some in H1 as (k1 & Hk1 & ->).
    apply special_tokens_lookup_Some in H2 as (k2 & Hk2 & ->).
    assert (k1 = k2) by lia. subst k2. congruence.
  - intros e bos_token id H. unfold init. by rewrite H.
Qed.

Lemma special_tokens_distinct_witness :
  special_tokens 256 !! "<|user_start|>" = Some (256 + Z.of_nat 1) /\
  (256 + 1 <> 256 + 2) /\
  init byte_enc "<|bos|>" = inr byte_tok.
Proof.
  destruct (special_tokens_distinct 256) as (H1 & H2 & H3). split; [|split].
  - apply (H1 1%nat). reflexivity.
  - apply (H2 "<|user_start|>" "<|user_end|>"); [vm_compute; reflexivity..|done].
  - apply (H3 byte_enc "<|bos|>" 256). vm_compute. reflexivity.
Defined.

(** ** Where each piece lands, and with which mask *)

Lemma placed_lookup fi fm off seg v (j : nat) :
  placed fi fm off seg v ->
  (j < length seg)%nat ->
  fi !! (off + j)%nat = seg !! j /\ fm !! (off + j)%nat = Some v.
Proof.
  intros (a & a' & b & b' & -> & -> & Ha & Ha') Hj. split.
  - rewrite lookup_app_r by lia. rewrite lookup_app_l by lia. f_equal. lia.
  - rewrite lookup_app_r by lia.
    rewrite lookup_app_l by (rewrite length_replicate; lia).
    apply lookup_replicate_2. lia.
Qed.

Lemma placed_holds_at fi fm off seg v L :
  length fi = length fm ->
  placed fi fm off seg v ->
  holds_at (py_slice_to L fi) (py_slice_to L fm) off seg v.
Proof.
  intros Hl Hp j Hj Hin.
  assert (Hin' : (off + j < length (py_slice_to L fm))%nat).
  { rewrite py_slice_to_take, length_take in Hin.
    rewrite py_slice_to_take, length_take, <- Hl. done. }
  rewrite !py_slice_to_lookup by done.
  by apply placed_lookup.
Qed.

Section render_split.
Variable self : RustBPETokenizer.
Variable sp : special_ids.

(** The emission of a list of messages is the emission of the messages
    before [m], then that of [m], then that of the messages after it. *)
Lemma chunk_render_messages_app i pre m post fi fm :
  chunk (render_messages self sp i (pre ++ m :: post)) = inr (fi, fm) ->
  exists pi pm mi mm qi qm,
    chunk (render_messages self sp i pre) = inr (pi, pm) /\
    chunk (render_message self sp (i + length pre) m) = inr (mi, mm) /\
    fi = pi ++ mi ++ qi /\ fm = pm ++ mm ++ qm /\
    length pi = length pm /\ length mi = length mm.
Proof.
  revert i fi fm. induction pre as [|m0 pre IH]; intros i fi fm H; simpl in H.
  - apply chunk_seq_inr in H as (mi & mm & qi & qm & Hm & Hq & -> & ->);
      [|auto with emits].
    exists [], [], mi, mm, qi, qm. rewrite Nat.add_0_r.
    repeat split; try done.
    by apply (emits_aligned _ _ (emits_render_message self sp i m)) in Hm as [? _].
  - apply chunk_seq_inr in H as (i0 & m0' & ri & rm & H0 & Hr & -> & ->);
      [|auto with emits].
    apply IH in Hr as (pi & pm & mi & mm & qi & qm & Hp & Hm & -> & -> & Lp & Lm).
    exists (i0 ++ pi), (m0' ++ pm), mi, mm, qi, qm.
    apply (emits_aligned _ _ (emits_render_message self sp i m0)) in H0 as Ha.
    destruct Ha as [L0 _]. simpl in L0.
    repeat split.
    + simpl. rewrite chunk_seq by auto with emits. by rewrite H0, Hp.
    + simpl. by rewrite <- Nat.add_succ_comm.
    + by rewrite <- !app_assoc.
    + by rewrite <- !app_assoc.
    + rewrite !length_app. lia.
    + done.
Qed.

Lemma chunk_render_parts_app ps1 p ps2 bi bm :
  chunk (render_parts self sp (ps1 ++ p :: ps2)) = inr (bi, bm) ->
  exists i1 m1 pi pm i2 m2,
    chunk (render_parts self sp ps1) = inr (i1, m1) /\
    chunk (render_part self sp p) = inr (pi, pm) /\
    bi = i1 ++ pi ++ i2 /\ bm = m1 ++ pm ++ m2 /\
    length i1 = length m1.
Proof.
  revert bi bm. induction ps1 as [|p0 ps1 IH]; intros bi bm H; simpl in H.
  - apply chunk_seq_inr in H as (pi & pm & i2 & m2 & Hp & H2 & -> & ->);
      [|auto with emits].
    by exists [], [], pi, pm, i2, m2.
  - apply chunk_seq_inr in H as (i0 & m0 & ri & rm & H0 & Hr & -> & ->);
      [|auto with emits].
    apply IH in Hr as (i1 & m1 & pi & pm & i2 & m2 & H1 & Hp & -> & -> & L1).
    exists (i0 ++ i1), (m0 ++ m1), pi, pm, i2, m2.
    apply (emits_aligned _ _ (emits_render_part self sp p0)) in H0 as Ha.
    destruct Ha as [L0 _]. simpl in L0.
    repeat split.
    + simpl. rewrite chunk_seq by auto with emits. by rewrite H0, H1.
    + done.
    + by rewrite <- !app_assoc.
    + by rewrite <- !app_assoc.
    + rewrite !length_app. lia.
Qed.
End render_split.

Ltac list_norm :=
  repeat first [progress simpl | rewrite <- app_assoc | rewrite length_app].
Ltac solve_placed := repeat split; list_norm; first [done | lia | congruence].

(** [C2] In what an accepted conversation renders to, at the offset where
    a message starts (the number of ids emitted for BOS and the messages
    before it): a user message's start marker, text ids and end marker all
    have mask 0; an assistant message's end marker has mask 1 (and its
    start marker mask 0); inside an assistant part list, a [python] part's
    start marker, text ids and end marker all have mask 1 and a
    [python_output] part's all have mask 0.  Each statement is about the
    positions that the truncation kept. *)
Theorem mask_by_origin self conv L ids mask :
  render_conversation self conv L = inr (ids, mask) ->
  exists sp msgs,
    fetch_special_ids self = inr sp /\
    merge_system conv = inr msgs /\
    forall pre m post,
      msgs = pre ++ m :: post ->
      exists ids_pre mask_pre,
        chunk (add_tokens (OneToken (get_bos_token_id self)) 0 ;>
               render_messages self sp 0 pre) = inr (ids_pre, mask_pre) /\
        let off := length ids_pre in
        (role m = "user" ->
         exists s,
           content m = CStr s /\
           holds_at ids mask off
             (user_start sp :: encode_ordinary (enc self) s ++ [user_end sp]) 0) /\
        (role m = "assistant" ->
         exists body_ids body_mask,
           chunk (render_assistant_content self sp (content m)) =
             inr (body_ids, body_mask) /\
           holds_at ids mask off [assistant_start sp] 0 /\
           holds_at ids mask (off + 1 + length body_ids) [assistant_end sp] 1 /\
           forall ps ps1 p ps2,
             content m = CParts ps ->
             ps = ps1 ++ p :: ps2 ->
             exists ids1 mask1,
               chunk (render_parts self sp ps1) = inr (ids1, mask1) /\
               let poff := (off + 1 + length ids1)%nat in
               (part_type p = "python" ->
                holds_at ids mask poff
                  (python_start sp :: encode_ordinary (enc self) (part_text p)
                     ++ [python_end sp]) 1) /\
               (part_type p = "python_output" ->
                holds_at ids mask poff
                  (output_start sp :: encode_ordinary (enc self) (part_text p)
                     ++ [output_end sp]) 0)).
Proof.
  intros H.
  apply render_conversation_inr in H as (fi & fm & He & -> & ->).
  apply emit_inr in He as (msgs & sp & i2 & m2 & Hm & Hne & Hsp & Hc & -> & -> & [Hl _]).
  simpl in Hl.
  exists sp, msgs. split; [done|]. split; [done|].
  intros pre m post ->.
  apply chunk_render_messages_app
    in Hc as (pi & pm & mi & mm & qi & qm & Hp & Hmsg & -> & -> & Lp & Lm).
  exists (bos_token_id self :: pi), (0 :: pm). split.
  { rewrite chunk_seq by auto with emits. by rewrite Hp. }
  assert (Hfull : length (bos_token_id self :: pi ++ mi ++ qi) =
                  length (0 :: pm ++ mm ++ qm)) by (simpl; congruence).
  assert (Hacc : role m = must_be_from (0 + length pre) /\ content_ok m = true).
  { apply (accepted_render_message self sp). by eexists. }
  destruct Hacc as [Hrole Hok]. cbv zeta. split.
  - intros Hr. unfold content_ok in Hok. rewrite Hr in Hok. simpl in Hok.
    destruct (content m) as [s| | |] eqn:Hcm; try done.
    exists s. split; [done|].
    rewrite (chunk_render_message_user self sp _ m s) in Hmsg by congruence.
    inversion Hmsg; subst mi mm.
    apply placed_holds_at; [done|].
    exists (bos_token_id self :: pi), (0 :: pm), qi, qm. solve_placed.
  - intros Hr.
    rewrite chunk_render_message_assistant in Hmsg by congruence.
    apply rbind_inr in Hmsg as ([bi bm] & Hbody & Hmsg). simpl in Hmsg.
    inversion Hmsg; subst mi mm.
    assert (Lb : length bi = length bm).
    { by apply (emits_aligned _ _ (emits_render_assistant_content self sp (content m)))
        in Hbody as [? _]. }
    exists bi, bm. split; [done|]. split; [|split].
    + apply placed_holds_at; [done|].
      exists (bos_token_id self :: pi), (0 :: pm),
        (bi ++ [assistant_end sp] ++ qi), (bm ++ [1] ++ qm).
      solve_placed.
    + apply placed_holds_at; [done|].
      exists (bos_token_id self :: pi ++ assistant_start sp :: bi),
        (0 :: pm ++ 0 :: bm), qi, qm.
      solve_placed.
    + intros ps ps1 p ps2 Hcm ->. rewrite Hcm in Hbody. simpl in Hbody.
      apply chunk_render_parts_app
        in Hbody as (i1 & m1 & xi & xm & r1 & r2 & H1 & Hx & -> & -> & L1).
      exists i1, m1. split; [done|]. split; intros Ht.
      * rewrite chunk_render_part_python in Hx by done.
        inversion Hx; subst xi xm.
        apply placed_holds_at; [done|].
        exists (bos_token_id self :: pi ++ assistant_start sp :: i1),
          (0 :: pm ++ 0 :: m1),
          (r1 ++ [assistant_end sp] ++ qi), (r2 ++ [1] ++ qm).
        solve_placed.
      * rewrite chunk_render_part_python_output in Hx by done.
        inversion Hx; subst xi xm.
        apply placed_holds_at; [done|].
        exists (bos_token_id self :: pi ++ assistant_start sp :: i1),
          (0 :: pm ++ 0 :: m1),
          (r1 ++ [assistant_end sp] ++ qi), (r2 ++ [1] ++ qm).
        solve_placed.
Qed.

Lemma mask_by_origin_witness :
  holds_at [256; 257; 104; 105; 258; 259; 97; 261; 98; 262; 263; 99; 264; 260]
           [0; 0; 0; 0; 0; 0; 1; 1; 1; 1; 0; 0; 0; 1]
           10 [263; 99; 264] 0.
Proof.
  destruct (mask_by_origin byte_tok {| messages := [msg "user" "hi"; tool_turn] |} 2048
              [256; 257; 104; 105; 258; 259; 97; 261; 98; 262; 263; 99; 264; 260]
              [0; 0; 0; 0; 0; 0; 1; 1; 1; 1; 0; 0; 0; 1])
    as (sp & msgs & Hsp & Hm & H).
  { vm_compute. reflexivity. }
  assert (Esp : inr sp = (inr byte_special_ids : result special_ids))
    by (rewrite <- Hsp; vm_compute; reflexivity).
  injection Esp as ->.
  assert (Em : inr msgs = (inr [msg "user" "hi"; tool_turn] : result (list message)))
    by (rewrite <- Hm; reflexivity).
  injection Em as ->.
  destruct (H [msg "user" "hi"] tool_turn [] eq_refl)
    as (ids_pre & mask_pre & Hpre & _ & Hass).
  assert (Epre : inr (ids_pre, mask_pre) =
                 (inr ([256; 257; 104; 105; 258], [0; 0; 0; 0; 0])
                  : result (list Z * list Z)))
    by (rewrite <- Hpre; vm_compute; reflexivity).
  injection Epre as -> ->.
  destruct (Hass eq_refl) as (bi & bm & _ & _ & _ & Hparts).
  destruct (Hparts _ [ {| part_type := "text"; part_text := "a" |};
                       {| part_type := "python"; part_text := "b" |} ]
              {| part_type := "python_output"; part_text := "c" |} []
              eq_refl eq_refl) as (i1 & m1 & H1 & _ & Hout).
  assert (E1 : inr (i1, m1) =
               (inr ([97; 261; 98; 262], [1; 1; 1; 1]) : result (list Z * list Z)))
    by (rewrite <- H1; vm_compute; reflexivity).
  injection E1 as -> ->.
  exact (Hout eq_refl).
Defined.

(** ** The exceptions, case by case *)

Example empty_conversation_raises :
  render_conversation byte_tok {| messages := [] |} 2048 = inl IndexError.
Proof. reflexivity. Qed.

Example lone_system_message_raises :
  render_conversation byte_tok {| messages := [msg "system" "S"] |} 2048 =
  inl IndexError.
Proof. reflexivity. Qed.

Example system_then_assistant_raises :
  render_conversation byte_tok
    {| messages := [msg "system" "S"; msg "assistant" "yo"] |} 2048 =
  inl AssertionError.
Proof. reflexivity. Qed.

Example system_then_user_without_text_raises :
  render_conversation byte_tok
    {| messages := [msg "system" "S"; {| role := "user"; content := CNone |}] |} 2048 =
  inl TypeError.
Proof. reflexivity. Qed.

Example user_with_parts_raises :
  render_conversation byte_tok
    {| messages := [ {| role := "user"; content := CParts [] |} ] |} 2048 =
  inl AssertionError.
Proof. vm_compute. reflexivity. Qed.

Example assistant_with_number_raises :
  render_conversation byte_tok
    {| messages := [msg "user" "hi"; {| role := "assistant"; content := CInt 4 |}] |} 2048 =
  inl ValueError.
Proof. vm_compute. reflexivity. Qed.

Example unknown_part_raises :
  render_conversation byte_tok
    {| messages := [msg "user" "hi";
                    {| role := "assistant";
                       content := CParts [ {| part_type := "image"; part_text := "x" |} ] |}] |}
    2048 =
  inl ValueError.
Proof. vm_compute. reflexivity. Qed.

Example unknown_special_token_raises :
  encode byte_tok TOther (Some (TokName "<|nope|>")) None = inl KeyError.
Proof. vm_compute. reflexivity. Qed.

(** A negative [max_tokens] is the slice [[:max_tokens]] all the same:
    it drops that many elements from the end. *)
Example negative_max_tokens :
  render_conversation byte_tok
    {| messages := [msg "user" "hi"; msg "assistant" "yo"] |} (-3) =
  inr ([256; 257; 104; 105; 258; 259], [0; 0; 0; 0; 0; 0]).
Proof. vm_compute. reflexivity. Qed.

(** * Further properties *)

(** ** [encode]: names, ids and errors *)

Lemma resolve_inl self a e :
  resolve self a = inl e -> e = KeyError /\ unknown_name self a.
Proof.
  destruct a as [[id|name]|]; simpl; try done.
  unfold encode_special.
  destruct (encode_single_token (enc self) name) as [id|] eqn:E; simpl; [done|].
  intros H. inversion H. split; [done|]. by exists name.
Qed.

Lemma resolve_unknown self a : unknown_name self a -> resolve self a = inl KeyError.
Proof. intros (name & -> & H). simpl. unfold encode_special. by rewrite H. Qed.

Lemma resolve_inr_known self a p : resolve self a = inr p -> ~ unknown_name self a.
Proof. intros H Hu. apply resolve_unknown in Hu. congruence. Qed.

(** [X1] [encode] raises exactly when [prepend] or [append] is a name the
    encoding object does not know or the text is neither a string nor a
    list; the exception is [KeyError] exactly in the first two cases,
    whatever the text is, and [ValueError] otherwise.  Ids given as
    integers are never looked up. *)
Theorem encode_raises_iff self text prepend append :
  (raised (encode self text prepend append) <->
   unknown_name self prepend \/ unknown_name self append \/ text = TOther) /\
  (encode self text prepend append = inl KeyError <->
   unknown_name self prepend \/ unknown_name self append) /\
  (encode self text prepend append = inl ValueError <->
   ~ unknown_name self prepend /\ ~ unknown_name self append /\ text = TOther).
Proof.
  unfold encode.
  destruct (resolve self prepend) as [e1|p] eqn:Hp.
  { apply resolve_inl in Hp as [-> Hu]. simpl.
    split; [|split]; split; intros H.
    - by left.
    - apply raised_inl.
    - by left.
    - done.
    - discriminate.
    - by destruct H as [H _]. }
  apply resolve_inr_known in Hp.
  destruct (resolve self append) as [e2|a] eqn:Ha.
  { apply resolve_inl in Ha as [-> Hu]. simpl.
    split; [|split]; split; intros H.
    - right. by left.
    - apply raised_inl.
    - by right.
    - done.
    - discriminate.
    - by destruct H as (_ & H & _). }
  apply resolve_inr_known in Ha. simpl.
  destruct text as [s|l|]; simpl; (split; [|split]; split; intros H).
  - by destruct H.
  - by destruct H as [H|[H|H]].
  - discriminate.
  - by destruct H.
  - discriminate.
  - by destruct H as (_ & _ & H).
  - by destruct H.
  - by destruct H as [H|[H|H]].
  - discriminate.
  - by destruct H.
  - discriminate.
  - by destruct H as (_ & _ & H).
  - by right; right.
  - apply raised_inl.
  - discriminate.
  - by destruct H.
  - done.
  - done.
Qed.

(** [X2] A wrapper that [__init__] built around the BOS name [b] puts
    [get_bos_token_id()] at position 0 of every sequence encoded with
    [prepend = b]: of the one sequence of a string, and of each row of a
    list. *)
Theorem encode_prepend_bos e b self :
  init e b = inr self ->
  (forall s append ids,
      encode self (TStr s) (Some (TokName b)) append = inr (EIds ids) ->
      ids !! 0%nat = Some (get_bos_token_id self)) /\
  (forall l append rows,
      encode self (TList l) (Some (TokName b)) append = inr (ERows rows) ->
      Forall (fun row => row !! 0%nat = Some (get_bos_token_id self)) rows).
Proof.
  unfold init. destruct (encode_single_token e b) as [id|] eqn:E; [|done].
  intros H. inversion H; subst self. clear H.
  assert (Hfront : forall (a : option Z) (v : list Z),
             append_back a (id :: v) !! 0%nat = Some id).
  { intros [x|] v; done. }
  split.
  - intros s append ids. unfold encode. simpl. unfold encode_special. simpl.
    rewrite E. simpl. destruct (resolve _ append) as [e'|a]; simpl; [done|].
    intros H. inversion H. apply Hfront.
  - intros l append rows. unfold encode. simpl. unfold encode_special. simpl.
    rewrite E. simpl. destruct (resolve _ append) as [e'|a]; simpl; [done|].
    intros H. inversion H. rewrite Forall_fmap, Forall_fmap.
    apply Forall_true. intros row. simpl. apply Hfront.
Qed.

Lemma encode_prepend_bos_witness :
  [256; 104; 105] !! 0%nat = Some (get_bos_token_id byte_tok).
Proof.
  destruct (encode_prepend_bos byte_enc "<|bos|>" byte_tok) as [H _].
  - vm_compute. reflexivity.
  - apply (H "hi" None). vm_compute. reflexivity.
Defined.

(** ** The three phases of [render_conversation] and their errors *)

(** The renderer, phase by phase: the system merge, the length
    assertion, the eight markers, the loop, the two slices. *)
Lemma render_conversation_phases self conv L :
  render_conversation self conv L =
  let* msgs := merge_system conv in
  let* _ := py_assert (1 <=? length msgs)%nat in
  let* sp := fetch_special_ids self in
  let* p := chunk (render_messages self sp 0 msgs) in
  inr (py_slice_to L (bos_token_id self :: p.1), py_slice_to L (0 :: p.2)).
Proof.
  unfold render_conversation, emit.
  destruct (merge_system conv) as [e|msgs]; [done|].
  destruct msgs as [|m0 msgs]; [done|].
  destruct (fetch_special_ids self) as [e|sp]; [done|].
  cbn [rbind py_assert length Nat.leb].
  rewrite chunk_seq by auto with emits.
  destruct (chunk (render_messages self sp 0 (m0 :: msgs))) as [e|[i m]];
    reflexivity.
Qed.

Lemma merge_system_nonempty conv msgs :
  merge_system conv = inr msgs -> py_assert (1 <=? length msgs)%nat = inr tt.
Proof.
  intros H.
  apply merge_system_inr in H as [(m0 & tl & Hm & _ & ->)|(? & ? & ? & ? & ? & _ & _ & _ & _ & _ & ->)].
  - by rewrite Hm.
  - done.
Qed.

Lemma fetch_special_ids_inl self e :
  fetch_special_ids self = inl e -> e = KeyError.
Proof.
  unfold fetch_special_ids, encode_special.
  repeat (match goal with
          | |- context [encode_single_token ?x ?n] =>
              destruct (encode_single_token x n); simpl
          end; try (intros H; by inversion H)).
Qed.

Lemma fetch_special_ids_missing self name :
  name ∈ MARKERS ->
  encode_single_token (enc self) name = None ->
  fetch_special_ids self = inl KeyError.
Proof.
  intros Hin Hnone.
  destruct (fetch_special_ids self) as [e|sp] eqn:Hf.
  - by apply fetch_special_ids_inl in Hf as ->.
  - exfalso. unfold fetch_special_ids, encode_special in Hf.
    unfold MARKERS, SPECIAL_TOKENS in Hin. simpl in Hin.
    repeat (apply elem_of_cons in Hin as [->|Hin];
            [rewrite Hnone in Hf; simpl in Hf; try discriminate;
             repeat (match type of Hf with
                     | context [encode_single_token ?x ?n] =>
                         destruct (encode_single_token x n); simpl in Hf
                     end; try discriminate)|]).
    by apply elem_of_nil in Hin.
Qed.

(** [X3] When the encoding object lacks one of the eight markers (as the
    one of a pretrained vocabulary does), both renderers raise on every
    conversation, and [render_conversation] raises [KeyError] on every
    conversation that gets through the system merge, before any role or
    content is looked at. *)
Theorem missing_marker_key_error self name :
  name ∈ MARKERS ->
  encode_single_token (enc self) name = None ->
  (forall conv msgs L,
      merge_system conv = inr msgs ->
      render_conversation self conv L = inl KeyError) /\
  (forall conv L, raised (render_conversation self conv L)) /\
  (forall conv, raised (render_for_completion self conv)).
Proof.
  intros Hin Hnone.
  pose proof (fetch_special_ids_missing self name Hin Hnone) as Hf.
  assert (Hall : forall conv L, raised (render_conversation self conv L)).
  { intros conv L. rewrite render_conversation_phases, Hf.
    destruct (merge_system conv) as [e|[|m0 msgs]]; apply raised_inl. }
  split; [|split].
  - intros conv msgs L Hm. rewrite render_conversation_phases, Hm. cbn [rbind].
    by rewrite (merge_system_nonempty conv msgs Hm), Hf.
  - exact Hall.
  - intros conv. unfold render_for_completion.
    destruct (last (messages conv)) as [m|]; [|apply raised_inl].
    apply raised_rbind_k. intros _. by apply raised_rbind.
Qed.

Lemma missing_marker_key_error_witness :
  from_pretrained pretrained_enc = inr pretrained_tok /\
  render_conversation pretrained_tok
    {| messages := [msg "user" "hi"; msg "assistant" "yo"] |} 2048 = inl KeyError.
Proof.
  split; [reflexivity|].
  destruct (missing_marker_key_error pretrained_tok "<|user_start|>") as (H & _).
  - unfold MARKERS. simpl. by left.
  - reflexivity.
  - apply (H _ [msg "user" "hi"; msg "assistant" "yo"]). reflexivity.
Defined.

(** [X4] The errors of the system merge come first: they are raised for
    every tokenizer, also one that lacks the markers, and for every bound.
    No message: [IndexError]; a lone system message: [IndexError]; a system
    message followed by a message that is not from the user:
    [AssertionError]; a system or a following user content that is not a
    string: [TypeError]. *)
Theorem system_merge_errors self conv L :
  (messages conv = [] ->
   render_conversation self conv L = inl IndexError) /\
  (forall m0,
      messages conv = [m0] -> role m0 = "system" ->
      render_conversation self conv L = inl IndexError) /\
  (forall m0 m1 rest,
      messages conv = m0 :: m1 :: rest ->
      role m0 = "system" -> role m1 <> "user" ->
      render_conversation self conv L = inl AssertionError) /\
  (forall m0 m1 rest,
      messages conv = m0 :: m1 :: rest ->
      role m0 = "system" -> role m1 = "user" ->
      (forall s, content m0 <> CStr s) \/ (forall s, content m1 <> CStr s) ->
      render_conversation self conv L = inl TypeError).
Proof.
  rewrite render_conversation_phases. unfold merge_system.
  split; [|split; [|split]].
  - by intros ->.
  - intros m0 -> R0. by rewrite R0.
  - intros m0 m1 rest -> R0 R1. rewrite R0. simpl.
    apply String.eqb_neq in R1. by rewrite R1.
  - intros m0 m1 rest -> R0 R1 Hc. rewrite R0, R1. simpl.
    destruct (content m0) as [s0| | |] eqn:C0; simpl; try done.
    + destruct (content m1) as [s1| | |] eqn:C1; simpl; try done.
      destruct Hc as [Hc|Hc]; [by destruct (Hc s0) | by destruct (Hc s1)].
Qed.

Lemma system_merge_errors_witness :
  render_conversation pretrained_tok
    {| messages := [msg "system" "S"; msg "assistant" "yo"] |} 7 =
  inl AssertionError.
Proof.
  destruct (system_merge_errors pretrained_tok
              {| messages := [msg "system" "S"; msg "assistant" "yo"] |} 7)
    as (_ & _ & H & _).
  apply (H (msg "system" "S") (msg "assistant" "yo") []); [reflexivity..|].
  simpl. discriminate.
Defined.

(** ** The loop stops at the first message it cannot render *)

Section render_app.
Variable self : RustBPETokenizer.
Variable sp : special_ids.

(** The loop over [a ++ b] is the loop over [a], then the loop over [b]
    with the indices going on; an error of the first is the error of the
    whole. *)
Lemma chunk_render_messages_app_eq i a b :
  chunk (render_messages self sp i (a ++ b)) =
  let* p1 := chunk (render_messages self sp i a) in
  let* p2 := chunk (render_messages self sp (i + length a) b) in
  inr (p1.1 ++ p2.1, p1.2 ++ p2.2).
Proof.
  revert i. induction a as [|m a IH]; intros i; simpl.
  - rewrite Nat.add_0_r.
    destruct (chunk (render_messages self sp i b)) as [e|[i2 m2]]; reflexivity.
  - rewrite !chunk_seq by auto with emits. rewrite IH.
    replace (i + S (length a))%nat with (S i + length a)%nat by lia.
    destruct (chunk (render_message self sp i m)) as [e|[i0 m0]]; [done|].
    destruct (chunk (render_messages self sp (S i) a)) as [e|[i1 m1]]; [done|].
    destruct (chunk (render_messages self sp (S i + length a) b)) as [e|[i2 m2]];
      [done|].
    cbn [rbind fst snd]. by rewrite !app_assoc.
Qed.

Lemma chunk_render_parts_app_eq a b :
  chunk (render_parts self sp (a ++ b)) =
  let* p1 := chunk (render_parts self sp a) in
  let* p2 := chunk (render_parts self sp b) in
  inr (p1.1 ++ p2.1, p1.2 ++ p2.2).
Proof.
  induction a as [|p a IH]; simpl.
  - destruct (chunk (render_parts self sp b)) as [e|[i2 m2]]; reflexivity.
  - rewrite !chunk_seq by auto with emits. rewrite IH.
    destruct (chunk (render_part self sp p)) as [e|[i0 m0]]; [done|].
    destruct (chunk (render_parts self sp a)) as [e|[i1 m1]]; [done|].
    destruct (chunk (render_parts self sp b)) as [e|[i2 m2]]; [done|].
    cbn [rbind fst snd]. by rewrite !app_assoc.
Qed.

Lemma chunk_render_messages_first_error i pre m post e :
  accepted (chunk (render_messages self sp i pre)) ->
  chunk (render_message self sp (i + length pre) m) = inl e ->
  chunk (render_messages self sp i (pre ++ m :: post)) = inl e.
Proof.
  intros [p Hp] Hm. rewrite chunk_render_messages_app_eq, Hp. simpl.
  rewrite chunk_seq by auto with emits. by rewrite Hm.
Qed.

Lemma chunk_render_parts_first_error ps1 p ps2 :
  forallb known_part ps1 = true ->
  known_part p = false ->
  chunk (render_parts self sp (ps1 ++ p :: ps2)) = inl ValueError.
Proof.
  intros H1 Hp. apply (accepted_render_parts self sp) in H1 as [c Hc].
  rewrite chunk_render_parts_app_eq. rewrite Hc. simpl.
  rewrite chunk_seq by auto with emits.
  by rewrite chunk_render_part_unknown.
Qed.

Lemma chunk_render_message_user_not_str i m :
  role m = "user" ->
  (forall s, content m <> CStr s) ->
  chunk (render_message self sp i m) = inl AssertionError.
Proof.
  intros Hr Hc.
  destruct (String.eqb_spec (role m) (must_be_from i)) as [Hi|Hi];
    [|by apply chunk_render_message_wrong_role].
  unfold render_message, chunk, sbind, lift. rewrite <- Hi, Hr. simpl.
  destruct (content m) as [s| | |]; try done. by destruct (Hc s).
Qed.
End render_app.

(** [X5] With the markers resolved and the system merge passed, the first
    message that cannot be rendered decides the exception, whatever comes
    after it: a role other than the one its index asks for and a user
    content that is not a string give [AssertionError]; an assistant
    content that is neither a string nor a list, and the first part of an
    unknown kind in an assistant part list, give [ValueError]. *)
Theorem first_bad_message_decides self sp conv pre m post L :
  fetch_special_ids self = inr sp ->
  merge_system conv = inr (pre ++ m :: post) ->
  (forall k m', pre !! k = Some m' ->
                role m' = must_be_from k /\ content_ok m' = true) ->
  (role m <> must_be_from (length pre) ->
   render_conversation self conv L = inl AssertionError) /\
  (role m = "user" -> (forall s, content m <> CStr s) ->
   render_conversation self conv L = inl AssertionError) /\
  (role m = must_be_from (length pre) -> role m = "assistant" ->
   (forall s, content m <> CStr s) -> (forall ps, content m <> CParts ps) ->
   render_conversation self conv L = inl ValueError) /\
  (role m = must_be_from (length pre) -> role m = "assistant" ->
   forall ps1 p ps2,
     content m = CParts (ps1 ++ p :: ps2) ->
     forallb known_part ps1 = true -> known_part p = false ->
     render_conversation self conv L = inl ValueError).
Proof.
  intros Hsp Hm Hpre.
  assert (Hacc : accepted (chunk (render_messages self sp 0 pre)))
    by (by apply accepted_render_messages).
  assert (Hrun : forall e,
             chunk (render_message self sp (length pre) m) = inl e ->
             render_conversation self conv L = inl e).
  { intros e He. rewrite render_conversation_phases, Hm. cbn [rbind].
    rewrite (merge_system_nonempty conv _ Hm), Hsp. cbn [rbind].
    by rewrite (chunk_render_messages_first_error self sp 0 pre m post e Hacc He). }
  split; [|split; [|split]].
  - intros Hr. apply Hrun. by apply chunk_render_message_wrong_role.
  - intros Hr Hc. apply Hrun. by apply chunk_render_message_user_not_str.
  - intros Hi Hr Hs Hp. apply Hrun.
    rewrite chunk_render_message_assistant by congruence.
    destruct (content m) as [s|ps|z|]; try done.
    + by destruct (Hs s).
    + by destruct (Hp ps).
  - intros Hi Hr ps1 p ps2 Hc H1 Hk. apply Hrun.
    rewrite chunk_render_message_assistant by congruence.
    rewrite Hc. simpl. by rewrite chunk_render_parts_first_error.
Qed.

Lemma first_bad_message_decides_witness :
  render_conversation byte_tok
    {| messages := [msg "user" "hi";
                    {| role := "assistant"; content := CInt 4 |};
                    msg "system" "late"] |} 2048 =
  inl ValueError.
Proof.
  destruct (first_bad_message_decides byte_tok byte_special_ids
              {| messages := [msg "user" "hi";
                              {| role := "assistant"; content := CInt 4 |};
                              msg "system" "late"] |}
              [msg "user" "hi"] {| role := "assistant"; content := CInt 4 |}
              [msg "system" "late"] 2048) as (_ & _ & H & _).
  - vm_compute. reflexivity.
  - reflexivity.
  - intros [|[|k]] m' Hk; simpl in Hk; try discriminate.
    inversion Hk. split; reflexivity.
  - apply H; [reflexivity | reflexivity | discriminate | discriminate].
Defined.

(** ** Longer conversations, smaller bounds *)

Lemma take_prefix_le {A} (l : list A) (n n' : nat) :
  (n <= n')%nat -> take n l `prefix_of` take n' l.
Proof.
  intros Hn. exists (take (n' - n) (drop n l)).
  rewrite take_take_drop. f_equal. lia.
Qed.

Lemma py_slice_to_prefix {A} (L : Z) (a b : list A) :
  py_slice_to L a `prefix_of` py_slice_to L (a ++ b).
Proof.
  rewrite !py_slice_to_take, length_app. unfold slice_len.
  destruct (Z.ltb_spec L 0).
  - rewrite take_app.
    apply prefix_app_r. apply take_prefix_le. lia.
  - rewrite take_app. by apply prefix_app_r.
Qed.

Lemma merge_system_app_inv conv more msgs' :
  messages conv <> [] ->
  (forall m, messages conv = [m] -> role m <> "system") ->
  merge_system {| messages := messages conv ++ more |} = inr msgs' ->
  exists msgs, merge_system conv = inr msgs /\ msgs' = msgs ++ more.
Proof.
  unfold merge_system. simpl.
  destruct (messages conv) as [|m0 tl] eqn:Hm; [done|]. intros _ Hlone. simpl.
  destruct (String.eqb_spec (role m0) "system") as [R0|R0].
  - destruct tl as [|m1 rest]; [by destruct (Hlone m0)|]. simpl.
    destruct (py_assert (String.eqb (role m1) "user")) as [e|[]]; [done|].
    cbn [rbind].
    destruct (py_add (content m0) (CStr newline2)) as [e|c]; [done|]. cbn [rbind].
    destruct (py_add c (content m1)) as [e|c']; [done|]. cbn [rbind].
    intros H. inversion H. by eexists.
  - intros H. inversion H. by eexists.
Qed.

(** [X6] Appending messages to a conversation (one that is not empty and not
    a lone system message) never changes what was rendered for it: when
    the longer conversation is accepted, so is the shorter one, and at the
    same bound its ids and its mask are prefixes of the longer one's. *)
Theorem appended_messages_extend self conv more L ids' mask' :
  messages conv <> [] ->
  (forall m, messages conv = [m] -> role m <> "system") ->
  render_conversation self {| messages := messages conv ++ more |} L =
    inr (ids', mask') ->
  exists ids mask,
    render_conversation self conv L = inr (ids, mask) /\
    ids `prefix_of` ids' /\ mask `prefix_of` mask'.
Proof.
  intros Hne Hlone H. rewrite render_conversation_phases in H.
  apply rbind_inr in H as (msgs' & Hm' & H).
  apply rbind_inr in H as ([] & _ & H).
  apply rbind_inr in H as (sp & Hsp & H).
  apply rbind_inr in H as ([fi' fm'] & Hc & H). inversion H; subst ids' mask'.
  apply merge_system_app_inv in Hm' as (msgs & Hm & ->); [|done..].
  rewrite chunk_render_messages_app_eq in Hc.
  apply rbind_inr in Hc as ([fi fm] & Hc1 & Hc).
  apply rbind_inr in Hc as ([ei em] & Hc2 & Hc). inversion Hc; subst fi' fm'.
  exists (py_slice_to L (bos_token_id self :: fi)), (py_slice_to L (0 :: fm)).
  split; [|split].
  - rewrite render_conversation_phases, Hm. cbn [rbind].
    rewrite (merge_system_nonempty conv msgs Hm). cbn [rbind].
    rewrite Hsp. cbn [rbind]. by rewrite Hc1.
  - apply (py_slice_to_prefix L (bos_token_id self :: fi) ei).
  - apply (py_slice_to_prefix L (0 :: fm) em).
Qed.

Lemma appended_messages_extend_witness :
  exists ids mask,
    render_conversation byte_tok {| messages := [msg "user" "hi"] |} 2048 =
      inr (ids, mask) /\
    ids `prefix_of` [256; 257; 104; 105; 258; 259; 121; 111; 260] /\
    mask `prefix_of` [0; 0; 0; 0; 0; 0; 1; 1; 1].
Proof.
  apply (appended_messages_extend byte_tok {| messages := [msg "user" "hi"] |}
           [msg "assistant" "yo"] 2048).
  - discriminate.
  - intros m Hm. inversion Hm. discriminate.
  - vm_compute. reflexivity.
Defined.

(** [X7] Rendering at a bound [L'] and cutting the result to a smaller bound
    [L] (both at least 0) is rendering at [L]. *)
Theorem truncation_composes self conv L L' ids' mask' :
  0 <= L <= L' ->
  render_conversation self conv L' = inr (ids', mask') ->
  render_conversation self conv L =
  inr (py_slice_to L ids', py_slice_to L mask').
Proof.
  intros HL H.
  apply render_conversation_inr in H as (fi & fm & He & -> & ->).
  unfold render_conversation. rewrite He. simpl.
  rewrite !py_slice_to_nonneg by lia. rewrite !take_take.
  do 2 f_equal; f_equal; lia.
Qed.

Lemma truncation_composes_witness :
  render_conversation byte_tok
    {| messages := [msg "user" "hi"; msg "assistant" "yo"] |} 3 =
  inr (py_slice_to 3 [256; 257; 104; 105; 258], py_slice_to 3 [0; 0; 0; 0; 0]).
Proof.
  apply (truncation_composes byte_tok
           {| messages := [msg "user" "hi"; msg "assistant" "yo"] |} 3 5).
  - lia.
  - vm_compute. reflexivity.
Defined.

(** [X8] Every accepted conversation has its roles laid out by position: an
    optional system message first, then user and assistant in turn.  So a
    system message anywhere but first, and a role other than [system],
    [user] and [assistant] anywhere, make the renderer raise. *)
Theorem roles_by_position self conv L :
  (accepted (render_conversation self conv L) ->
   forall k m, messages conv !! k = Some m ->
     (k = 0%nat /\ role m = "system") \/
     role m = "user" \/ role m = "assistant") /\
  (forall k m, messages conv !! S k = Some m -> role m = "system" ->
               raised (render_conversation self conv L)) /\
  (forall m, m ∈ messages conv ->
             role m <> "system" -> role m <> "user" -> role m <> "assistant" ->
             raised (render_conversation self conv L)).
Proof.
  assert (Hroles : accepted (render_conversation self conv L) ->
            forall k m, messages conv !! k = Some m ->
              (k = 0%nat /\ role m = "system") \/
              role m = "user" \/ role m = "assistant").
  { rewrite accepted_render_conversation. intros Ha.
    destruct (emit self conv) as [e|[ids mask]] eqn:He; [by destruct Ha|].
    apply emit_inr in He as (msgs & sp & i2 & m2 & Hm & Hne & Hsp & Hc & _).
    assert (Hok : forall k m, msgs !! k = Some m -> role m = must_be_from k).
    { intros k m Hk.
      by apply (accepted_render_messages self sp 0 msgs); [eexists|]. }
    assert (Hmbf : forall k m, msgs !! k = Some m ->
                               role m = "user" \/ role m = "assistant").
    { intros k m Hk. rewrite (Hok k m Hk). apply must_be_from_cases. }
    apply merge_system_inr in Hm
      as [(m0 & tl & Hm & R0 & ->)|(m0 & m1 & rest & s0 & s1 & Hm & R0 & R1 & C0 & C1 & ->)].
    - intros k m Hk. right. by apply (Hmbf k m).
    - rewrite Hm. intros [|[|k]] m Hk; simpl in Hk.
      + inversion Hk; subst. by left.
      + inversion Hk; subst. right. by left.
      + right. by apply (Hmbf (S k) m). }
  split; [done|]. split.
  - intros k m Hk Hr.
    destruct (accepted_or_raised (render_conversation self conv L)) as [Ha|]; [|done].
    destruct (Hroles Ha (S k) m Hk) as [[? _]|[H|H]]; [done|..];
      rewrite Hr in H; discriminate.
  - intros m [k Hk]%list_elem_of_lookup R1 R2 R3.
    destruct (accepted_or_raised (render_conversation self conv L)) as [Ha|]; [|done].
    by destruct (Hroles Ha k m Hk) as [[_ H]|[H|H]].
Qed.

Lemma roles_by_position_witness :
  raised (render_conversation byte_tok
            {| messages := [msg "user" "hi"; msg "assistant" "yo";
                            msg "system" "late"] |} 2048).
Proof.
  destruct (roles_by_position byte_tok
              {| messages := [msg "user" "hi"; msg "assistant" "yo";
                              msg "system" "late"] |} 2048) as (_ & H & _).
  apply (H 1%nat (msg "system" "late")); reflexivity.
Defined.

(** ** How many ids, and which masks *)

Section render_length.
Variable self : RustBPETokenizer.
Variable sp : special_ids.

Lemma length_render_part p pi pm :
  chunk (render_part self sp p) = inr (pi, pm) ->
  length pi = part_len self p.
Proof.
  intros H. unfold part_len.
  assert (Hk : known_part p = true) by (apply (accepted_render_part self sp); by eexists).
  unfold known_part in Hk.
  destruct (String.eqb_spec (part_type p) "text") as [Ht|Ht].
  - rewrite chunk_render_part_text in H by done. by inversion H.
  - destruct (String.eqb_spec (part_type p) "python") as [Hp|Hp].
    + rewrite chunk_render_part_python in H by done. inversion H.
      simpl. rewrite length_app. simpl. lia.
    + destruct (String.eqb_spec (part_type p) "python_output") as [Ho|Ho]; [|done].
      rewrite chunk_render_part_python_output in H by done. inversion H.
      simpl. rewrite length_app. simpl. lia.
Qed.

Lemma length_render_parts ps bi bm :
  chunk (render_parts self sp ps) = inr (bi, bm) ->
  length bi = sum_list (map (part_len self) ps).
Proof.
  revert bi bm. induction ps as [|p ps IH]; intros bi bm H; simpl in H.
  - by inversion H.
  - apply chunk_seq_inr in H as (pi & pm & ri & rm & Hp & Hr & -> & ->);
      [|auto with emits].
    rewrite length_app. simpl.
    by rewrite (length_render_part p pi pm), (IH ri rm).
Qed.

Lemma length_render_assistant_content c bi bm :
  chunk (render_assistant_content self sp c) = inr (bi, bm) ->
  length bi = content_len self c.
Proof.
  destruct c as [s|ps|z|]; simpl; intros H.
  - by inversion H.
  - by apply length_render_parts in H.
  - done.
  - done.
Qed.

Lemma length_render_message i m mi mm :
  chunk (render_message self sp i m) = inr (mi, mm) ->
  length mi = (2 + content_len self (content m))%nat.
Proof.
  intros H.
  assert (Ha : role m = must_be_from i /\ content_ok m = true)
    by (apply (accepted_render_message self sp); by eexists).
  destruct Ha as [Hr Hok].
  destruct (must_be_from_cases i) as [Hi|Hi]; rewrite Hi in Hr.
  - unfold content_ok in Hok. rewrite Hr in Hok. simpl in Hok.
    destruct (content m) as [s| | |] eqn:Hc; try done.
    rewrite (chunk_render_message_user self sp i m s) in H by done.
    inversion H. simpl. rewrite length_app. simpl. lia.
  - rewrite chunk_render_message_assistant in H by done.
    apply rbind_inr in H as ([bi bm] & Hb & H). inversion H.
    apply length_render_assistant_content in Hb.
    simpl. rewrite length_app. simpl. lia.
Qed.

Lemma length_render_messages i msgs fi fm :
  chunk (render_messages self sp i msgs) = inr (fi, fm) ->
  length fi = sum_list (map (fun m => 2 + content_len self (content m))%nat msgs).
Proof.
  revert i fi fm. induction msgs as [|m msgs IH]; intros i fi fm H; simpl in H.
  - by inversion H.
  - apply chunk_seq_inr in H as (mi & mm & ri & rm & Hm & Hr & -> & ->);
      [|auto with emits].
    rewrite length_app. simpl.
    by rewrite (length_render_message i m mi mm), (IH (S i) ri rm).
Qed.
End render_length.

(** What an accepted call went through, with the lists before the two
    slices. *)
Lemma render_conversation_inr_phases self conv L ids mask :
  render_conversation self conv L = inr (ids, mask) ->
  exists msgs sp fi fm,
    merge_system conv = inr msgs /\
    fetch_special_ids self = inr sp /\
    chunk (render_messages self sp 0 msgs) = inr (fi, fm) /\
    length fi = length fm /\
    ids = py_slice_to L (bos_token_id self :: fi) /\
    mask = py_slice_to L (0 :: fm).
Proof.
  intros H. apply render_conversation_inr in H as (fi & fm & He & -> & ->).
  apply emit_inr in He as (msgs & sp & i2 & m2 & Hm & _ & Hsp & Hc & -> & -> & [Hl _]).
  by exists msgs, sp, i2, m2.
Qed.

(** [X9] The number of ids returned: the natural length of the conversation
    (BOS, two markers per message and per tool part, and the encoded
    texts), cut to the bound; a negative bound takes that many off the
    end. *)
Theorem rendered_length self conv msgs L ids mask :
  merge_system conv = inr msgs ->
  render_conversation self conv L = inr (ids, mask) ->
  (0 <= L ->
   Z.of_nat (length ids) = Z.min L (Z.of_nat (natural_length self msgs))) /\
  (L < 0 ->
   Z.of_nat (length ids) = Z.max 0 (Z.of_nat (natural_length self msgs) + L)).
Proof.
  intros Hm H.
  apply render_conversation_inr_phases
    in H as (msgs' & sp & fi & fm & Hm' & Hsp & Hc & Hl & -> & _).
  rewrite Hm in Hm'. inversion Hm'; subst msgs'.
  apply length_render_messages in Hc.
  unfold natural_length. rewrite <- Hc.
  rewrite py_slice_to_take, length_take. unfold slice_len. simpl length.
  destruct (Z.ltb_spec L 0); split; intros; lia.
Qed.

Lemma rendered_length_witness :
  (0 <= 2048 ->
   Z.of_nat (length [256; 257; 104; 105; 258; 259; 97; 261; 98; 262; 263; 99; 264; 260]) =
   Z.min 2048 (Z.of_nat (natural_length byte_tok [msg "user" "hi"; tool_turn]))) /\
  (2048 < 0 ->
   Z.of_nat (length [256; 257; 104; 105; 258; 259; 97; 261; 98; 262; 263; 99; 264; 260]) =
   Z.max 0 (Z.of_nat (natural_length byte_tok [msg "user" "hi"; tool_turn]) + 2048)).
Proof.
  apply (rendered_length byte_tok {| messages := [msg "user" "hi"; tool_turn] |}
           [msg "user" "hi"; tool_turn] 2048
           [256; 257; 104; 105; 258; 259; 97; 261; 98; 262; 263; 99; 264; 260]
           [0; 0; 0; 0; 0; 0; 1; 1; 1; 1; 0; 0; 0; 1]).
  - reflexivity.
  - vm_compute. reflexivity.
Defined.

(** [X10] In a render that was not truncated, the mask always holds a 0 and
    holds a 1 exactly when the conversation has an assistant turn, that is
    at least two messages after the system merge. *)
Theorem supervised_iff_assistant_turn self conv msgs L ids mask :
  merge_system conv = inr msgs ->
  render_conversation self conv L = inr (ids, mask) ->
  Z.of_nat (natural_length self msgs) <= L ->
  0 ∈ mask /\ (1 ∈ mask <-> (2 <= length msgs)%nat).
Proof.
  intros Hm H HL.
  apply render_conversation_inr_phases
    in H as (msgs' & sp & fi & fm & Hm' & Hsp & Hc & Hl & -> & ->).
  rewrite Hm in Hm'. inversion Hm'; subst msgs'.
  pose proof (length_render_messages self sp 0 msgs fi fm Hc) as Hlen.
  unfold natural_length in HL. rewrite <- Hlen in HL.
  rewrite (py_slice_to_all L (0 :: fm)) by (simpl; lia).
  split; [by left|].
  assert (Hok : forall k m, msgs !! k = Some m ->
                            role m = must_be_from k /\ content_ok m = true).
  { apply (accepted_render_messages self sp 0 msgs). by eexists. }
  destruct msgs as [|m0 [|m1 rest]].
  - by apply merge_system_nonempty in Hm.
  - destruct (Hok 0%nat m0 eq_refl) as [R0 C0].
    change (must_be_from 0) with "user" in R0.
    unfold content_ok in C0. rewrite R0 in C0. simpl in C0.
    destruct (content m0) as [s| | |] eqn:Hc0; try done.
    simpl in Hc. rewrite chunk_seq in Hc by auto with emits.
    rewrite (chunk_render_message_user self sp 0 m0 s) in Hc by done.
    inversion Hc. simpl. split; [|lia].
    rewrite app_nil_r. intros Hin.
    apply elem_of_cons in Hin as [Hin|Hin]; [done|].
    apply elem_of_cons in Hin as [Hin|Hin]; [done|].
    by apply elem_of_replicate_inv in Hin.
  - split; [intros _; simpl; lia|]. intros _.
    apply (chunk_render_messages_app self sp 0 [m0] m1 rest)
      in Hc as (pi & pm & mi & mm & qi & qm & _ & Hm1 & _ & -> & _).
    destruct (Hok 1%nat m1 eq_refl) as [R1 _].
    change (must_be_from 1) with "assistant" in R1.
    rewrite chunk_render_message_assistant in Hm1 by done.
    apply rbind_inr in Hm1 as ([bi bm] & _ & Hm1). inversion Hm1.
    right. apply elem_of_app. right. apply elem_of_app. left.
    simpl. right. apply elem_of_app. right. by left.
Qed.

Lemma supervised_iff_assistant_turn_witness :
  0 ∈ [0; 0; 0; 0; 0; 0; 1; 1; 1] /\
  (1 ∈ [0; 0; 0; 0; 0; 0; 1; 1; 1] <->
   (2 <= length [msg "user" "hi"; msg "assistant" "yo"])%nat).
Proof.
  apply (supervised_iff_assistant_turn byte_tok
           {| messages := [msg "user" "hi"; msg "assistant" "yo"] |}
           [msg "user" "hi"; msg "assistant" "yo"] 2048
           [256; 257; 104; 105; 258; 259; 121; 111; 260]).
  - reflexivity.
  - vm_compute. reflexivity.
  - vm_compute. discriminate.
Defined.

(** ** The completion prompt and the training render *)

(** The same conversation, seen through its list of messages only. *)
Lemma merge_system_messages conv l :
  messages conv = l -> merge_system conv = merge_system {| messages := l |}.
Proof. by intros <-. Qed.

(** When a conversation that ends with an assistant message passes the
    system merge and the loop, so does the conversation without that
    message, and the loop ran over the same list less its last message. *)
Lemma merge_system_snoc_inv self sp conv init m msgs :
  messages conv = init ++ [m] ->
  role m = "assistant" ->
  merge_system conv = inr msgs ->
  accepted (chunk (render_messages self sp 0 msgs)) ->
  exists msgs0,
    merge_system {| messages := init |} = inr msgs0 /\
    msgs = msgs0 ++ [m] /\
    accepted (chunk (render_messages self sp 0 msgs0)).
Proof.
  intros Hmsgs Hr Hm Ha.
  assert (Hok : forall k m', msgs !! k = Some m' -> role m' = must_be_from k).
  { intros k m' Hk. by apply (accepted_render_messages self sp 0 msgs). }
  rewrite (merge_system_messages conv (init ++ [m]) Hmsgs) in Hm.
  apply (merge_system_app_inv {| messages := init |} [m]) in Hm
    as (msgs0 & Hm0 & ->).
  - exists msgs0. split; [done|]. split; [done|].
    rewrite chunk_render_messages_app_eq in Ha. destruct Ha as [p Hp].
    apply rbind_inr in Hp as (p1 & Hp1 & _). by exists p1.
  - simpl. intros ->. simpl in Hm. unfold merge_system in Hm. simpl in Hm.
    rewrite Hr in Hm. simpl in Hm. inversion Hm; subst msgs.
    specialize (Hok 0%nat m eq_refl). rewrite Hr in Hok. discriminate.
  - simpl. intros m0 -> R0. unfold merge_system in Hm. simpl in Hm.
    rewrite R0, Hr in Hm. simpl in Hm. discriminate.
Qed.

(** [X11] Every conversation that [render_conversation] accepts and that ends
    with an assistant message is accepted by [render_for_completion]. *)
Theorem completion_accepts_rendered self conv m L :
  accepted (render_conversation self conv L) ->
  last (messages conv) = Some m ->
  role m = "assistant" ->
  accepted (render_for_completion self conv).
Proof.
  intros [[ids mask] H] Hlast Hr.
  apply last_Some in Hlast as [init Hmsgs].
  apply render_conversation_inr_phases
    in H as (msgs & sp & fi & fm & Hm & Hsp & Hc & _).
  destruct (merge_system_snoc_inv self sp conv init m msgs)
    as (msgs0 & Hm0 & -> & [[pi pm] Hp]); try done; [by eexists|].
  rewrite (render_for_completion_snoc self conv init m) by done.
  rewrite render_conversation_phases, Hm0. cbn [rbind].
  rewrite (merge_system_nonempty _ msgs0 Hm0). cbn [rbind].
  rewrite Hsp. cbn [rbind]. rewrite Hp. cbn [rbind].
  rewrite (fetch_special_ids_assistant_start self sp Hsp). cbn [rbind].
  by eexists.
Qed.

Lemma completion_accepts_rendered_witness :
  accepted (render_for_completion byte_tok
              {| messages := [msg "user" "hi"; tool_turn] |}).
Proof.
  apply (completion_accepts_rendered byte_tok
           {| messages := [msg "user" "hi"; tool_turn] |} tool_turn 2048).
  - eexists. vm_compute. reflexivity.
  - reflexivity.
  - reflexivity.
Defined.

Lemma py_slice_to_short {A} (L : Z) (xs : list A) :
  0 <= L -> Z.of_nat (length (py_slice_to L xs)) < L -> py_slice_to L xs = xs.
Proof.
  intros HL H. rewrite py_slice_to_length in H by done.
  apply py_slice_to_all. lia.
Qed.



(** The system merge, for the completion renderer: both results are the
    same, pair or error. *)
Lemma render_conversation_merged self m0 m1 rest s0 s1 L :
  role m0 = "system" -> role m1 = "user" ->
  content m0 = CStr s0 -> content m1 = CStr s1 ->
  render_conversation self {| messages := m0 :: m1 :: rest |} L =
  render_conversation self
    {| messages := {| role := "user"; content := CStr (s0 +:+ newline2 +:+ s1) |}
                   :: rest |} L.
Proof.
  intros R0 R1 C0 C1. rewrite !render_conversation_phases.
  unfold merge_system. simpl. rewrite R0, R1, C0, C1. simpl.
  by rewrite append_assoc.
Qed.

(** [X13] A leading system message is merged for the completion renderer as
    it is for the conversation renderer: the prompt of a conversation that
    starts with a system message and a user message is the prompt of the
    conversation without the system message whose first user message holds
    the system text, two line feeds and the user text. *)
Theorem completion_system_merge self conv m0 m1 rest s0 s1 :
  messages conv = m0 :: m1 :: rest ->
  role m0 = "system" -> role m1 = "user" ->
  content m0 = CStr s0 -> content m1 = CStr s1 ->
  render_for_completion self conv =
  render_for_completion self
    {| messages := {| role := "user"; content := CStr (s0 +:+ newline2 +:+ s1) |}
                   :: rest |}.
Proof.
  intros Hm R0 R1 C0 C1.
  destruct rest as [|x rest'] using rev_ind.
  - unfold render_for_completion. rewrite Hm. simpl. by rewrite R1.
  - clear IHrest'.
    destruct (String.eqb_spec (role x) "assistant") as [Rx|Rx].
    + rewrite (render_for_completion_snoc self conv (m0 :: m1 :: rest') x)
        by (by rewrite ?Hm).
      rewrite (render_for_completion_snoc self _
                 ({| role := "user"; content := CStr (s0 +:+ newline2 +:+ s1) |}
                  :: rest') x) by done.
      by rewrite (render_conversation_merged self m0 m1 rest' s0 s1).
    + apply String.eqb_neq in Rx.
      unfold render_for_completion. rewrite Hm. simpl messages.
      change (m0 :: m1 :: rest' ++ [x]) with ((m0 :: m1 :: rest') ++ [x]).
      change ({| role := "user"; content := CStr (s0 +:+ newline2 +:+ s1) |}
              :: rest' ++ [x])
        with (({| role := "user"; content := CStr (s0 +:+ newline2 +:+ s1) |}
               :: rest') ++ [x]).
      rewrite !last_snoc. by rewrite Rx.
Qed.

Lemma completion_system_merge_witness :
  render_for_completion byte_tok
    {| messages := [msg "system" "S"; msg "user" "hi"; msg "assistant" "yo"] |} =
  render_for_completion byte_tok
    {| messages := [msg "user" ("S" +:+ newline2 +:+ "hi"); msg "assistant" "yo"] |}.
Proof.
  apply (completion_system_merge byte_tok
           {| messages := [msg "system" "S"; msg "user" "hi"; msg "assistant" "yo"] |}
           (msg "system" "S") (msg "user" "hi") [msg "assistant" "yo"] "S" "hi");
    reflexivity.
Defined.

(** ** [train_from_iterator] *)

Lemma dom_mergeable_ranks_from (l : list (string * Z)) (d : gmap string Z) :
  dom (fold_left (fun d kv => <[kv.1 := kv.2]> d) l d) =
  dom d ∪ list_to_set (l.*1).
Proof.
  revert d. induction l as [|[k v] l IH]; intros d; simpl.
  - by rewrite union_empty_r_L.
  - rewrite IH, dom_insert_L. simpl.
    by rewrite (comm_L (∪) {[k]} (dom d)), <- (assoc_L (∪)).
Qed.

Lemma size_mergeable_ranks_dict (l : list (string * Z)) :
  NoDup (l.*1) -> size (mergeable_ranks_dict l) = length l.
Proof.
  intros Hnd. unfold mergeable_ranks_dict.
  rewrite <- size_dom, dom_mergeable_ranks_from, dom_empty_L, union_empty_l_L.
  rewrite size_list_to_set by done. by rewrite length_fmap.
Qed.

Lemma special_tokens_lookup_index off (k : nat) name :
  SPECIAL_TOKENS !! k = Some name ->
  special_tokens off !! name = Some (off + Z.of_nat k).
Proof.
  intros Hk. unfold special_tokens.
  by rewrite (special_tokens_from_index _ 0 _ _ k name)
    by auto using SPECIAL_TOKENS_NoDup.
Qed.

(** [X14] [train_from_iterator] raises [AssertionError], before any training,
    exactly when [vocab_size] is below 265 (256 byte tokens and the 9
    special tokens).  Otherwise, when the encoding object resolves the
    special names as the dictionary it was given maps them, the wrapper it
    returns has the BOS id [tokens_offset] and resolves the eight markers
    to [tokens_offset + 1 .. tokens_offset + 8]. *)
Theorem train_from_iterator_spec
    (rustbpe_train : Z -> string -> rustbpe_Tokenizer)
    (tiktoken_Encoding : string -> string -> gmap string Z -> gmap string Z -> Encoding)
    (vocab_size : Z) :
  (vocab_size < 265 ->
   train_from_iterator rustbpe_train tiktoken_Encoding vocab_size =
   inl AssertionError) /\
  (265 <= vocab_size ->
   let tokenizer := rustbpe_train (vocab_size - 9) SPLIT_PATTERN in
   let mergeable_ranks := mergeable_ranks_dict (get_mergeable_ranks tokenizer) in
   let tokens_offset := Z.of_nat (size mergeable_ranks) in
   let e := tiktoken_Encoding "rustbpe" (get_pattern tokenizer) mergeable_ranks
              (special_tokens tokens_offset) in
   (forall name, name ∈ SPECIAL_TOKENS ->
                 encode_single_token e name = special_tokens tokens_offset !! name) ->
   exists self,
     train_from_iterator rustbpe_train tiktoken_Encoding vocab_size = inr self /\
     enc self = e /\
     get_bos_token_id self = tokens_offset /\
     fetch_special_ids self =
       inr {| user_start := tokens_offset + 1; user_end := tokens_offset + 2;
              assistant_start := tokens_offset + 3;
              assistant_end := tokens_offset + 4;
              python_start := tokens_offset + 5; python_end := tokens_offset + 6;
              output_start := tokens_offset + 7;
              output_end := tokens_offset + 8 |}).
Proof.
  split.
  - intros Hv. unfold train_from_iterator.
    change (Z.of_nat (length SPECIAL_TOKENS)) with 9.
    destruct (Z.leb_spec 256 (vocab_size - 9)); [lia | done].
  - intros Hv tokenizer mergeable_ranks tokens_offset e He.
    assert (Hres : forall (k : nat) name,
               SPECIAL_TOKENS !! k = Some name ->
               encode_single_token e name = Some (tokens_offset + Z.of_nat k)).
    { intros k name Hk. rewrite He by (by apply list_elem_of_lookup; exists k).
      by apply special_tokens_lookup_index. }
    exists {| enc := e; bos_token_id := tokens_offset |}.
    split; [|split; [done|split; [done|]]].
    + unfold train_from_iterator.
      change (Z.of_nat (length SPECIAL_TOKENS)) with 9.
      destruct (Z.leb_spec 256 (vocab_size - 9)); [|lia].
      cbn [py_assert rbind]. fold tokenizer. fold mergeable_ranks.
      fold tokens_offset. fold e.
      unfold init. rewrite (Hres 0%nat "<|bos|>") by done.
      do 2 f_equal. lia.
    + unfold fetch_special_ids, encode_special. simpl enc.
      rewrite (Hres 1%nat "<|user_start|>") by done.
      rewrite (Hres 2%nat "<|user_end|>") by done.
      rewrite (Hres 3%nat "<|assistant_start|>") by done.
      rewrite (Hres 4%nat "<|assistant_end|>") by done.
      rewrite (Hres 5%nat "<|python_start|>") by done.
      rewrite (Hres 6%nat "<|python_end|>") by done.
      rewrite (Hres 7%nat "<|output_start|>") by done.
      rewrite (Hres 8%nat "<|output_end|>") by done.
      reflexivity.
Qed.

(** [X15] With token byte strings that are pairwise different and ranks below
    their number (as a trained vocabulary has them), [tokens_offset] is the
    number of ordinary tokens, and every special token gets an id from
    [tokens_offset] to [tokens_offset + 8] that no ordinary token has. *)
Theorem special_ids_after_ranks (l : list (string * Z)) :
  NoDup (l.*1) ->
  (forall kv, kv ∈ l -> 0 <= kv.2 < Z.of_nat (length l)) ->
  let tokens_offset := Z.of_nat (size (mergeable_ranks_dict l)) in
  tokens_offset = Z.of_nat (length l) /\
  forall name id,
    special_tokens tokens_offset !! name = Some id ->
    tokens_offset <= id < tokens_offset + 9 /\
    forall kv, kv ∈ l -> kv.2 <> id.
Proof.
  intros Hnd Hranks tokens_offset.
  assert (Hoff : tokens_offset = Z.of_nat (length l)).
  { unfold tokens_offset. by rewrite size_mergeable_ranks_dict. }
  split; [done|].
  intros name id Hid.
  apply special_tokens_lookup_Some in Hid as (k & Hk & ->).
  apply lookup_lt_Some in Hk. simpl in Hk.
  split; [lia|]. intros kv Hkv. specialize (Hranks kv Hkv). lia.
Qed.

Lemma train_from_iterator_spec_witness :
  train_from_iterator toy_train toy_Encoding 264 = inl AssertionError /\
  exists self,
    train_from_iterator toy_train toy_Encoding 265 = inr self /\
    get_bos_token_id self = 256 /\
    encode_special self "<|assistant_start|>" = inr 259.
Proof.
  destruct (train_from_iterator_spec toy_train toy_Encoding 264) as [H _].
  split; [apply H; lia|].
  destruct (train_from_iterator_spec toy_train toy_Encoding 265) as [_ H'].
  destruct H' as (self & Ht & _ & Hb & Hf).
  - lia.
  - intros name Hin. unfold SPECIAL_TOKENS in Hin.
    repeat (apply elem_of_cons in Hin as [->|Hin]; [vm_compute; reflexivity|]).
    by apply elem_of_nil in Hin.
  - exists self. split; [exact Ht|]. split.
    + rewrite Hb. vm_compute. reflexivity.
    + rewrite (fetch_special_ids_assistant_start self _ Hf).
      vm_compute. reflexivity.
Defined.

Lemma special_ids_after_ranks_witness :
  Z.of_nat (size (mergeable_ranks_dict byte_ranks)) = Z.of_nat (length byte_ranks) /\
  forall name id,
    special_tokens (Z.of_nat (size (mergeable_ranks_dict byte_ranks))) !! name = Some id ->
    Z.of_nat (size (mergeable_ranks_dict byte_ranks)) <= id
      < Z.of_nat (size (mergeable_ranks_dict byte_ranks)) + 9 /\
    forall kv, kv ∈ byte_ranks -> kv.2 <> id.
Proof.
  apply (special_ids_after_ranks byte_ranks).
  - apply (bool_decide_unpack _). vm_compute. exact I.
  - apply Forall_forall. apply (bool_decide_unpack _). vm_compute. exact I.
Defined.

(** ** [visualize_tokenization] *)

Lemma visualize_tokens_lookup decode ids mask (j : nat) id v :
  ids !! j = Some id -> mask !! j = Some v ->
  visualize_tokens decode ids mask !! j =
  Some ((if v =? 1 then GREEN else RED) +:+ decode [id] +:+ RESET).
Proof.
  intros Hi Hm. unfold visualize_tokens.
  rewrite list_lookup_fmap, lookup_zip_with, Hi, Hm. done.
Qed.

(** [X16] The visualisation pairs ids and mask values position by position
    and stops at the shorter list without an error; a token is shown in
    green exactly when its mask value is 1, and in red for any other
    value. *)
Theorem visualize_tokens_zip decode ids mask :
  length (visualize_tokens decode ids mask) = min (length ids) (length mask) /\
  (forall (j : nat) id v,
      ids !! j = Some id -> mask !! j = Some v ->
      visualize_tokens decode ids mask !! j =
      Some ((if v =? 1 then GREEN else RED) +:+ decode [id] +:+ RESET)) /\
  visualize_tokenization decode ids mask =
  visualize_tokenization decode (take (length mask) ids) (take (length ids) mask).
Proof.
  split; [|split].
  - unfold visualize_tokens. by rewrite length_fmap, length_zip_with.
  - apply visualize_tokens_lookup.
  - unfold visualize_tokenization, visualize_tokens.
    by rewrite zip_with_take_both.
Qed.

Lemma render_conversation_same_length self conv L ids mask :
  render_conversation self conv L = inr (ids, mask) -> length ids = length mask.
Proof.
  intros H.
  apply render_conversation_inr_phases
    in H as (msgs & sp & fi & fm & _ & _ & _ & Hl & -> & ->).
  rewrite !py_slice_to_take, !length_take. simpl length. by rewrite Hl.
Qed.

(** [X17] The visualisation of a rendered conversation has one piece per id,
    in order, none dropped: piece [j] is the decoded id [j], coloured by
    mask value [j]. *)
Theorem visualize_rendered self decode conv L ids mask :
  render_conversation self conv L = inr (ids, mask) ->
  length (visualize_tokens decode ids mask) = length ids /\
  forall (j : nat) id,
    ids !! j = Some id ->
    exists v,
      mask !! j = Some v /\
      visualize_tokens decode ids mask !! j =
      Some ((if v =? 1 then GREEN else RED) +:+ decode [id] +:+ RESET).
Proof.
  intros H. apply render_conversation_same_length in H as Hl. split.
  - unfold visualize_tokens. rewrite length_fmap, length_zip_with. lia.
  - intros j id Hj.
    destruct (mask !! j) as [v|] eqn:Hm.
    + exists v. split; [done|]. by apply visualize_tokens_lookup.
    + apply lookup_ge_None in Hm. apply lookup_lt_Some in Hj. lia.
Qed.

Lemma visualize_rendered_witness :
  length (visualize_tokens toy_decode [256; 257; 104; 105; 258; 259; 121; 111; 260]
            [0; 0; 0; 0; 0; 0; 1; 1; 1]) = 9%nat.
Proof.
  destruct (visualize_rendered byte_tok toy_decode
              {| messages := [msg "user" "hi"; msg "assistant" "yo"] |} 2048
              [256; 257; 104; 105; 258; 259; 121; 111; 260]
              [0; 0; 0; 0; 0; 0; 1; 1; 1]) as [H _].
  - vm_compute. reflexivity.
  - exact H.
Defined.

(** ** The assistant's own text *)

(** [X18] What the assistant wrote is supervised: in an accepted render,
    the ids of an assistant message's string content, and the ids of each
    [text] part of an assistant part list, stand right where the emission
    of what precedes them ends, all with mask 1 (on the positions that the
    truncation kept). *)
Theorem assistant_text_supervised self conv L ids mask :
  render_conversation self conv L = inr (ids, mask) ->
  exists sp msgs,
    fetch_special_ids self = inr sp /\
    merge_system conv = inr msgs /\
    forall pre m post,
      msgs = pre ++ m :: post ->
      role m = "assistant" ->
      exists ids_pre mask_pre,
        chunk (add_tokens (OneToken (get_bos_token_id self)) 0 ;>
               render_messages self sp 0 pre) = inr (ids_pre, mask_pre) /\
        (forall s,
            content m = CStr s ->
            holds_at ids mask (length ids_pre + 1)
              (encode_ordinary (enc self) s) 1) /\
        (forall ps1 p ps2,
            content m = CParts (ps1 ++ p :: ps2) ->
            part_type p = "text" ->
            exists ids1 mask1,
              chunk (render_parts self sp ps1) = inr (ids1, mask1) /\
              holds_at ids mask (length ids_pre + 1 + length ids1)
                (encode_ordinary (enc self) (part_text p)) 1).
Proof.
  intros H.
  apply render_conversation_inr_phases
    in H as (msgs & sp & fi & fm & Hm & Hsp & Hc & Hl & -> & ->).
  exists sp, msgs. split; [done|]. split; [done|].
  intros pre m post -> Hr.
  assert (Hfull : length (bos_token_id self :: fi) = length (0 :: fm))
    by (simpl; congruence).
  apply chunk_render_messages_app
    in Hc as (pi & pm & mi & mm & qi & qm & Hp & Hmsg & -> & -> & Lp & Lm).
  exists (bos_token_id self :: pi), (0 :: pm). split.
  { rewrite chunk_seq by auto with emits. by rewrite Hp. }
  assert (Hrole : role m = must_be_from (0 + length pre)).
  { apply (accepted_render_message self sp). by eexists. }
  rewrite chunk_render_message_assistant in Hmsg by congruence.
  apply rbind_inr in Hmsg as ([bi bm] & Hbody & Hmsg). simpl in Hmsg.
  inversion Hmsg; subst mi mm. split.
  - intros s Hcm. rewrite Hcm in Hbody. inversion Hbody; subst bi bm.
    apply placed_holds_at; [done|].
    exists (bos_token_id self :: pi ++ [assistant_start sp]), (0 :: pm ++ [0]),
      ([assistant_end sp] ++ qi), ([1] ++ qm).
    solve_placed.
  - intros ps1 p ps2 Hcm Ht. rewrite Hcm in Hbody. simpl in Hbody.
    apply chunk_render_parts_app
      in Hbody as (i1 & m1 & xi & xm & r1 & r2 & H1 & Hx & -> & -> & L1).
    exists i1, m1. split; [done|].
    rewrite chunk_render_part_text in Hx by done. inversion Hx; subst xi xm.
    apply placed_holds_at; [done|].
    exists (bos_token_id self :: pi ++ assistant_start sp :: i1),
      (0 :: pm ++ 0 :: m1),
      (r1 ++ [assistant_end sp] ++ qi), (r2 ++ [1] ++ qm).
    solve_placed.
Qed.

Lemma assistant_text_supervised_witness :
  holds_at [256; 257; 104; 105; 258; 259; 121; 111; 260]
           [0; 0; 0; 0; 0; 0; 1; 1; 1] 6 [121; 111] 1.
Proof.
  destruct (assistant_text_supervised byte_tok
              {| messages := [msg "user" "hi"; msg "assistant" "yo"] |} 2048
              [256; 257; 104; 105; 258; 259; 121; 111; 260]
              [0; 0; 0; 0; 0; 0; 1; 1; 1])
    as (sp & msgs & Hsp & Hm & H).
  { vm_compute. reflexivity. }
  assert (Esp : inr sp = (inr byte_special_ids : result special_ids))
    by (rewrite <- Hsp; vm_compute; reflexivity).
  injection Esp as ->.
  assert (Em : inr msgs =
               (inr [msg "user" "hi"; msg "assistant" "yo"] : result (list message)))
    by (rewrite <- Hm; reflexivity).
  injection Em as ->.
  destruct (H [msg "user" "hi"] (msg "assistant" "yo") [] eq_refl eq_refl)
    as (ids_pre & mask_pre & Hpre & Hstr & _).
  assert (Epre : inr (ids_pre, mask_pre) =
                 (inr ([256; 257; 104; 105; 258], [0; 0; 0; 0; 0])
                  : result (list Z * list Z)))
    by (rewrite <- Hpre; vm_compute; reflexivity).
  injection Epre as -> ->.
  exact (Hstr "yo" eq_refl).
Defined.
